(** * QuickPizza catalog store: pkg/database/catalog.go and pkg/model/user.go

    A shallow embedding of the catalog (the transactional recorder, the
    bounded table enforcer and the login query) together with the user
    validation of the model package.

    Go values are modelled as follows: [int] and [int64] as [Z] (no arithmetic
    of the code can overflow: identities are only compared), [string] as
    [String.string] whose [String.length] is Go's byte length [len], an
    [error] as [option error] with [None] for [nil], a pointer argument that
    the callee mutates as a value threaded in and out of the call.

    The relational store behind [bun.DB] is modelled by its tables (lists of
    rows in storage order).  SQL leaves the relative order of rows with equal
    sort keys to the engine, so the engine's [ORDER BY ... DESC] is an
    interface ([Engine]) with the two laws every SQL engine obeys
    ([EngineLaws]); the implementation given lists rows of equal key in the
    order in which it scans them. *)

From Stdlib Require Import ZArith List Bool Lia String Ascii Permutation Sorted.
Import ListNotations.

#[local] Open Scope string_scope.
#[local] Open Scope Z_scope.

(** ** Errors *)

(** A Go [error] value.  [sql.ErrNoRows] is a sentinel compared with [==];
    every other error is identified by its message. *)
Inductive error : Type :=
| ErrNoRows
| Err (msg : string).

Definition error_eqb (a b : error) : bool :=
  match a, b with
  | ErrNoRows, ErrNoRows => true
  | Err x, Err y => String.eqb x y
  | _, _ => false
  end.

(** [err == target] on Go's nullable error. *)
Definition err_is (err : option error) (target : error) : bool :=
  match err with
  | Some e => error_eqb e target
  | None => false
  end.

(** ** pkg/model *)

Module User.

(** [type User struct] of user.go.  [Password] carries the tag [bun:"-"]: it
    is never stored. *)
Record t : Type := mk {
  ID : Z;
  Username : string;
  Token : string;
  Password : string;
  PasswordHash : string
}.

(** The zero value [var user model.User]. *)
Definition zero : t := mk 0 "" "" "" "".

Definition with_PasswordHash (h : string) (u : t) : t :=
  mk (ID u) (Username u) (Token u) (Password u) h.

Definition with_Token (tok : string) (u : t) : t :=
  mk (ID u) (Username u) tok (Password u) (PasswordHash u).

Definition with_ID (i : Z) (u : t) : t :=
  mk i (Username u) (Token u) (Password u) (PasswordHash u).

Definition MaxNameLength : nat := 32.

(** [func (u *User) Validate() error]: a [switch] whose first true case
    wins. *)
Definition Validate (u : t) : option error :=
  if String.eqb (Username u) "" then
    Some (Err "username field is empty")
  else if (MaxNameLength <? String.length (Username u))%nat then
    Some (Err "username field is too long")
  else if String.eqb (Username u) "default" then
    Some (Err "username field is invalid")
  else if String.eqb (Password u) "" then
    Some (Err "password is empty")
  else None.

End User.

Definition UserTokenLength : nat := 16.

Definition characters : list ascii :=
  list_ascii_of_string
    "abcdefghijklmnopqrstuvwxyzABCDEFGHIJKLMNOPQRSTUVWXYZ0123456789".

(** [func GenerateUserToken() string].  [Intn i n] is the result of the
    [i]-th call [rand.Intn(n)] on the global source; the loop fills the
    sixteen positions in order. *)
Definition GenerateUserToken (Intn : nat -> nat -> nat) : string :=
  string_of_list_ascii
    (map (fun i => nth (Intn i (List.length characters)) characters zero)
         (seq 0 UserTokenLength)).

Module Dough.

(** Modelled from the spec: the declaration of [model.Dough] is not among
    the sources; the catalog reads its identity only. *)
Record t : Type := mk { ID : Z }.

End Dough.

Module Ingredient.

(** Modelled from the spec: the declaration of [model.Ingredient] is not
    among the sources; the catalog reads its identity only. *)
Record t : Type := mk { ID : Z }.

End Ingredient.

Module Pizza.

(** Modelled from the spec: the declaration of [model.Pizza] is not among
    the sources.  A pizza has a numeric identity, "a required reference to
    exactly one Dough" (a reference, so it may be nil: [None]), the
    identity of that dough copied onto the row, and its ingredients. *)
Record t : Type := mk {
  ID : Z;
  DoughID : Z;
  Dough : option Dough.t;
  Ingredients : list Ingredient.t
}.

Definition with_DoughID (d : Z) (p : t) : t :=
  mk (ID p) d (Dough p) (Ingredients p).

Definition with_ID (i : Z) (p : t) : t :=
  mk i (DoughID p) (Dough p) (Ingredients p).

End Pizza.

(** Modelled from the spec: [model.PizzaToIngredients], "a row per (pizza,
    ingredient) pair"; the catalog builds it from the two identities. *)
Record PizzaToIngredients : Type := {
  PizzaID : Z;
  IngredientID : Z
}.

(** ** The store *)

(** A row of the [users] table: the persisted columns of [User.t] and the
    creation timestamp the store assigns. *)
Record UserRow : Type := {
  ur_id : Z;
  ur_created_at : Z;
  ur_username : string;
  ur_token : string;
  ur_password_hash : string
}.

(** A row of the [pizzas] table. *)
Record PizzaRow : Type := {
  pr_id : Z;
  pr_created_at : Z;
  pr_dough_id : Z
}.

(** The tables the catalog touches, each in storage order, and the
    autoincrement sequences (the largest identity ever assigned). *)
Record DB : Type := {
  users : list UserRow;
  users_seq : Z;
  pizzas : list PizzaRow;
  pizzas_seq : Z;
  pizza_to_ingredients : list PizzaToIngredients;
  doughs : list Dough.t;
  ingredients : list Ingredient.t
}.

Definition set_users (l : list UserRow) (db : DB) : DB :=
  {| users := l; users_seq := users_seq db;
     pizzas := pizzas db; pizzas_seq := pizzas_seq db;
     pizza_to_ingredients := pizza_to_ingredients db;
     doughs := doughs db; ingredients := ingredients db |}.

Definition set_pizzas (l : list PizzaRow) (db : DB) : DB :=
  {| users := users db; users_seq := users_seq db;
     pizzas := l; pizzas_seq := pizzas_seq db;
     pizza_to_ingredients := pizza_to_ingredients db;
     doughs := doughs db; ingredients := ingredients db |}.

(** What bun derives from the [model any] argument of a query: the table
    and its [id] and [created_at] columns. *)
Record Table (R : Type) : Type := {
  rows : DB -> list R;
  set_rows : list R -> DB -> DB;
  row_id : R -> Z;
  row_created_at : R -> Z
}.

Arguments rows {R} _ _.
Arguments set_rows {R} _ _ _.
Arguments row_id {R} _ _.
Arguments row_created_at {R} _ _.

(** The users table, selected in Go by a nil pointer to [model.User]. *)
Definition UserTable : Table UserRow :=
  {| rows := users; set_rows := set_users;
     row_id := ur_id; row_created_at := ur_created_at |}.

(** The pizzas table, selected in Go by a nil pointer to [model.Pizza]. *)
Definition PizzaTable : Table PizzaRow :=
  {| rows := pizzas; set_rows := set_pizzas;
     row_id := pr_id; row_created_at := pr_created_at |}.

(** *** The engine's ORDER BY *)

(** [ORDER BY key DESC] as the engine evaluates it on the rows it scans. *)
Class Engine : Type := {
  order_by_desc : forall {R : Type}, (R -> Z) -> list R -> list R
}.

(** Descending order of the sort key. *)
Definition desc {R : Type} (key : R -> Z) (a b : R) : Prop := key b <= key a.

(** What SQL promises of [ORDER BY key DESC]: the same rows, in descending
    order of the key.  Nothing is promised about rows with equal keys. *)
Class EngineLaws (E : Engine) : Prop := {
  order_by_desc_perm :
    forall (R : Type) (key : R -> Z) (l : list R),
      Permutation l (order_by_desc key l);
  order_by_desc_sorted :
    forall (R : Type) (key : R -> Z) (l : list R),
      StronglySorted (desc key) (order_by_desc key l)
}.

(** Insertion sort by a comparison: [x] is put in front of the first row it
    may precede. *)
Fixpoint insert_by {R : Type} (before : R -> R -> bool) (x : R) (l : list R)
  : list R :=
  match l with
  | [] => [x]
  | y :: t => if before x y then x :: y :: t
              else y :: insert_by before x t
  end.

Definition sort_by {R : Type} (before : R -> R -> bool) (l : list R) : list R :=
  fold_right (insert_by before) [] l.

(** A sorter that keeps rows with equal keys in scan order. *)
Definition stable_order {R : Type} (key : R -> Z) (l : list R) : list R :=
  sort_by (fun x y => key y <=? key x) l.

Definition stable_engine : Engine := {| order_by_desc := @stable_order |}.

(** *** The DELETE of the enforcer, on the rows of one table *)

(** [id IN (ids)] *)
Definition id_in (ids : list Z) (i : Z) : bool := existsb (Z.eqb i) ids.

(** The subquery [SELECT id FROM t ORDER BY created_at DESC LIMIT maximum]. *)
Definition newest_ids {E : Engine} {R : Type} (T : Table R) (maximum : Z)
  (l : list R) : list Z :=
  firstn (Z.to_nat maximum) (map (row_id T) (order_by_desc (row_created_at T) l)).

(** The predicate [id NOT IN (subquery) AND id > fixed] of the DELETE. *)
Definition doomed {R : Type} (T : Table R) (ids : list Z) (fixed : Z) (r : R)
  : bool :=
  negb (id_in ids (row_id T r)) && (fixed <? row_id T r).

(** [DELETE FROM t WHERE id NOT IN (subquery) AND id > fixed]: the rows
    left, in storage order. *)
Definition delete_excess {E : Engine} {R : Type} (T : Table R)
  (fixed maximum : Z) (l : list R) : list R :=
  filter (fun r => negb (doomed T (newest_ids T maximum l) fixed r)) l.

(** The rows the statement deletes. *)
Definition deleted_rows {E : Engine} {R : Type} (T : Table R)
  (fixed maximum : Z) (l : list R) : list R :=
  filter (doomed T (newest_ids T maximum l) fixed) l.

(** [enforceTableSizeLimits] on the rows of the table: nothing when
    [maximum <= 0], the DELETE otherwise. *)
Definition enforce_rows {E : Engine} {R : Type} (T : Table R)
  (fixed maximum : Z) (l : list R) : list R :=
  if maximum <=? 0 then l else delete_excess T fixed maximum l.

(** *** Statements and their failures *)

(** The statements the catalog sends to the store.  The [n] of
    [InsertPizzaToIngredients] is the position of the ingredient in the
    loop. *)
Inductive stmt : Type :=
| BeginTx
| CommitTx
| InsertUser
| InsertPizza
| InsertPizzaToIngredients (n : nat)
| DeleteExcess
| SelectUser
| SelectPizza.

(** Everything outside the catalog that one call depends on.  The password
    helper and the error injector are packages of the repository that are
    not among the sources: they are taken as they are called.
    [storage_fault s] is the failure, if any, with which the store answers
    statement [s] (connection loss, cancellation, ...); [rand_source i] is
    the [i]-th number drawn from the global random source; [now] is the
    store's clock. *)
Record Env : Type := {
  HashPassword : string -> string * option error;
  CheckPassword : string -> string -> bool;
  InjectErrors : string -> option error;
  rand_source : nat -> nat;
  storage_fault : stmt -> option error;
  now : Z
}.

(** [rand.Intn(n)] at the [i]-th draw: a number below [n]. *)
Definition Intn (env : Env) (i n : nat) : nat := Nat.modulo (rand_source env i) n.

(** ** Transactions *)

(** The result of a statement or of a transaction body: Go's
    [(value, error)] with exactly one of the two. *)
Inductive res (A : Type) : Type :=
| Ok (a : A)
| Fail (e : error).

Arguments Ok {A} a.
Arguments Fail {A} e.

(** A computation inside a transaction.  It reads and writes the store and
    the Go value [G] that the caller passed by pointer; both keep what was
    written when the computation fails (the store until the rollback). *)
Definition Tx (G A : Type) : Type := G * DB -> res A * (G * DB).

Definition tx_ret {G A : Type} (a : A) : Tx G A := fun s => (Ok a, s).

(** Sequencing with Go's [if err != nil { return err }]. *)
Definition tx_bind {G A B : Type} (m : Tx G A) (k : A -> Tx G B) : Tx G B :=
  fun s =>
    match m s with
    | (Ok a, s') => k a s'
    | (Fail e, s') => (Fail e, s')
    end.

Declare Scope tx_scope.
Delimit Scope tx_scope with tx.

Notation "x <- m ;; k" := (tx_bind m (fun x => k))
  (at level 61, m at next level, right associativity) : tx_scope.
Notation "m ;; k" := (tx_bind m (fun _ => k))
  (at level 61, right associativity) : tx_scope.

(** [db.RunInTx(ctx, nil, fn)]: begin, run [fn], commit when it returns nil
    and roll back otherwise.  The store is restored by a rollback (and by a
    failed commit); the Go value is not. *)
Definition RunInTx {G : Type} (env : Env) (fn : Tx G unit)
  : G * DB -> option error * (G * DB) :=
  fun '(g, db) =>
    match storage_fault env BeginTx with
    | Some e => (Some e, (g, db))
    | None =>
        match fn (g, db) with
        | (Fail e, (g', _)) => (Some e, (g', db))
        | (Ok _, (g', db')) =>
            match storage_fault env CommitTx with
            | Some e => (Some e, (g', db))
            | None => (None, (g', db'))
            end
        end
    end.

(** *** INSERT *)

(** The identity an insert assigns: the next of the sequence for the zero
    value of an autoincrement key, the given one otherwise. *)
Definition assign_id (seq given : Z) : Z :=
  if given =? 0 then seq + 1 else given.

Definition add_user (r : UserRow) (db : DB) : DB :=
  {| users := users db ++ [r]; users_seq := Z.max (users_seq db) (ur_id r);
     pizzas := pizzas db; pizzas_seq := pizzas_seq db;
     pizza_to_ingredients := pizza_to_ingredients db;
     doughs := doughs db; ingredients := ingredients db |}.

Definition add_pizza (r : PizzaRow) (db : DB) : DB :=
  {| users := users db; users_seq := users_seq db;
     pizzas := pizzas db ++ [r]; pizzas_seq := Z.max (pizzas_seq db) (pr_id r);
     pizza_to_ingredients := pizza_to_ingredients db;
     doughs := doughs db; ingredients := ingredients db |}.

Definition add_pizza_to_ingredients (r : PizzaToIngredients) (db : DB) : DB :=
  {| users := users db; users_seq := users_seq db;
     pizzas := pizzas db; pizzas_seq := pizzas_seq db;
     pizza_to_ingredients := pizza_to_ingredients db ++ [r];
     doughs := doughs db; ingredients := ingredients db |}.

(** [tx.NewInsert().Model(user).Exec(ctx)].  The key is [pk,autoincrement];
    [Username] and [Token] are tagged [unique]; [Password] is not stored.
    On success bun writes the assigned identity back into the Go value. *)
Definition insert_user (env : Env) : Tx User.t unit :=
  fun '(user, db) =>
    match storage_fault env InsertUser with
    | Some e => (Fail e, (user, db))
    | None =>
        let id := assign_id (users_seq db) (User.ID user) in
        if id_in (map ur_id (users db)) id then
          (Fail (Err "UNIQUE constraint failed: users.id"), (user, db))
        else if existsb (fun r => String.eqb (ur_username r) (User.Username user))
                        (users db) then
          (Fail (Err "UNIQUE constraint failed: users.username"), (user, db))
        else if existsb (fun r => String.eqb (ur_token r) (User.Token user))
                        (users db) then
          (Fail (Err "UNIQUE constraint failed: users.token"), (user, db))
        else
          (Ok tt,
           (User.with_ID id user,
            add_user {| ur_id := id; ur_created_at := now env;
                        ur_username := User.Username user;
                        ur_token := User.Token user;
                        ur_password_hash := User.PasswordHash user |} db))
    end.

(** [tx.NewInsert().Model(pizza).Exec(ctx)] *)
Definition insert_pizza (env : Env) : Tx Pizza.t unit :=
  fun '(pizza, db) =>
    match storage_fault env InsertPizza with
    | Some e => (Fail e, (pizza, db))
    | None =>
        let id := assign_id (pizzas_seq db) (Pizza.ID pizza) in
        if id_in (map pr_id (pizzas db)) id then
          (Fail (Err "UNIQUE constraint failed: pizzas.id"), (pizza, db))
        else
          (Ok tt,
           (Pizza.with_ID id pizza,
            add_pizza {| pr_id := id; pr_created_at := now env;
                         pr_dough_id := Pizza.DoughID pizza |} db))
    end.

(** [tx.NewInsert().Model(&model.PizzaToIngredients{...}).Exec(ctx)] for the
    [n]-th ingredient. *)
Definition insert_pizza_to_ingredients {G : Type} (env : Env) (n : nat)
  (r : PizzaToIngredients) : Tx G unit :=
  fun '(g, db) =>
    match storage_fault env (InsertPizzaToIngredients n) with
    | Some e => (Fail e, (g, db))
    | None => (Ok tt, (g, add_pizza_to_ingredients r db))
    end.

(** ** pkg/database: the catalog *)

(** [type Catalog struct], without the handle of the store. *)
Record Catalog : Type := {
  fixedPizzas : Z;
  fixedUsers : Z;
  fixedRatings : Z;
  maxPizzas : Z;
  maxUsers : Z;
  maxRatings : Z
}.

(** A Go call either returns or panics. *)
Inductive go (A : Type) : Type :=
| Returns (a : A)
| Panics (msg : string).

Arguments Returns {A} a.
Arguments Panics {A} msg.

Section WithEngine.

Context {E : Engine}.

(** [func (c *Catalog) enforceTableSizeLimits(ctx, tx, model, fixed, maximum)] *)
Definition enforceTableSizeLimits {G R : Type} (env : Env) (model : Table R)
  (fixed maximum : Z) : Tx G unit :=
  fun '(g, db) =>
    if maximum <=? 0 then (Ok tt, (g, db))
    else
      match storage_fault env DeleteExcess with
      | Some err => (Fail err, (g, db))
      | None =>
          (Ok tt,
           (g, set_rows model
                 (delete_excess model fixed maximum (rows model db)) db))
      end.

(** [func (c *Catalog) RecordUser(ctx, user *model.User) error] *)
Definition RecordUser (c : Catalog) (env : Env)
  : User.t * DB -> option error * (User.t * DB) :=
  fun '(user, db) =>
    match HashPassword env (User.Password user) with
    | (_, Some err) => (Some err, (user, db))
    | (passwordHash, None) =>
        let user := User.with_PasswordHash passwordHash user in
        let user := User.with_Token (GenerateUserToken (Intn env)) user in
        RunInTx env
          (insert_user env ;;
           enforceTableSizeLimits env UserTable (fixedUsers c) (maxUsers c))%tx
          (user, db)
    end.

(** The loop [for _, i := range pizza.Ingredients] of [RecordRecommendation],
    from the [n]-th ingredient on; [pizza.ID] is read at every turn. *)
Fixpoint insert_ingredients (env : Env) (n : nat) (l : list Ingredient.t)
  : Tx Pizza.t unit :=
  match l with
  | [] => tx_ret tt
  | i :: rest =>
      fun '(pizza, db) =>
        (insert_pizza_to_ingredients env n
           {| PizzaID := Pizza.ID pizza; IngredientID := Ingredient.ID i |} ;;
         insert_ingredients env (S n) rest)%tx (pizza, db)
  end.

(** The function passed to [RunInTx] by [RecordRecommendation]. *)
Definition record_recommendation_tx (c : Catalog) (env : Env) : Tx Pizza.t unit :=
  (insert_pizza env ;;
   (fun '(pizza, db) =>
      insert_ingredients env 0 (Pizza.Ingredients pizza) (pizza, db)) ;;
   enforceTableSizeLimits env PizzaTable (fixedPizzas c) (maxPizzas c))%tx.

(** [func (c *Catalog) RecordRecommendation(ctx, pizza *model.Pizza) error] *)
Definition RecordRecommendation (c : Catalog) (env : Env)
  : Pizza.t * DB -> go (option error * (Pizza.t * DB)) :=
  fun '(pizza, db) =>
    match InjectErrors env "record-recommendation" with
    | Some err => Returns (Some err, (pizza, db))
    | None =>
        match Pizza.Dough pizza with
        | None => Panics "invalid memory address or nil pointer dereference"
        | Some dough =>
            let pizza := Pizza.with_DoughID (Dough.ID dough) pizza in
            Returns (RunInTx env (record_recommendation_tx c env) (pizza, db))
        end
    end.

End WithEngine.

(** *** Queries *)

Definition user_of_row (r : UserRow) : User.t :=
  User.mk (ur_id r) (ur_username r) (ur_token r) "" (ur_password_hash r).

(** [NewSelect().Model(&user).Where("username = ?", username).Limit(1).Scan(ctx)]:
    the Go value is filled only when a row is found. *)
Definition scan_user_by_username (env : Env) (db : DB) (username : string)
  : User.t * option error :=
  match storage_fault env SelectUser with
  | Some e => (User.zero, Some e)
  | None =>
      match find (fun r => String.eqb (ur_username r) username) (users db) with
      | Some r => (user_of_row r, None)
      | None => (User.zero, Some ErrNoRows)
      end
  end.

(** [func (c *Catalog) LoginUser(ctx, username, passwordText string)],
    which returns a pointer to a user (nil: [None]) and an error. *)
Definition LoginUser (env : Env) (db : DB) (username passwordText : string)
  : option User.t * option error :=
  let '(user, err) := scan_user_by_username env db username in
  if err_is err ErrNoRows then (None, None)
  else if CheckPassword env passwordText (User.PasswordHash user) then
    (Some user, None)
  else (None, None).

Definition pizza_zero : Pizza.t := Pizza.mk 0 0 None [].

(** The relations [Dough] and [Ingredients] of a pizza row, resolved. *)
Definition pizza_of_row (db : DB) (r : PizzaRow) : Pizza.t :=
  Pizza.mk (pr_id r) (pr_dough_id r)
    (find (fun d => Dough.ID d =? pr_dough_id r) (doughs db))
    (flat_map
       (fun j => if PizzaID j =? pr_id r
                 then filter (fun i => Ingredient.ID i =? IngredientID j)
                             (ingredients db)
                 else [])
       (pizza_to_ingredients db)).

(** [NewSelect().Model(&pizza).Relation("Dough").Relation("Ingredients").
    Where("pizza.id = ?", id).Limit(1).Scan(ctx)] *)
Definition scan_pizza_by_id (env : Env) (db : DB) (id : Z)
  : Pizza.t * option error :=
  match storage_fault env SelectPizza with
  | Some e => (pizza_zero, Some e)
  | None =>
      match find (fun r => pr_id r =? id) (pizzas db) with
      | Some r => (pizza_of_row db r, None)
      | None => (pizza_zero, Some ErrNoRows)
      end
  end.

(** [func (c *Catalog) GetRecommendation(ctx, id int)], which returns a
    pointer to a pizza and an error. *)
Definition GetRecommendation (env : Env) (db : DB) (id : Z)
  : option Pizza.t * option error :=
  let '(pizza, err) := scan_pizza_by_id env db id in
  if err_is err ErrNoRows then (None, None)
  else (Some pizza, err).

(** ** Requests in sequence *)

(** A call of the transactional recorder, with the environment it runs in. *)
Inductive request : Type :=
| RegisterUser (env : Env) (user : User.t)
| RecordPizza (env : Env) (pizza : Pizza.t).

(** The store after a request; a call that panics has written nothing. *)
Definition serve {E : Engine} (c : Catalog) (db : DB) (req : request) : DB :=
  match req with
  | RegisterUser env user => snd (snd (RecordUser c env (user, db)))
  | RecordPizza env pizza =>
      match RecordRecommendation c env (pizza, db) with
      | Returns r => snd (snd r)
      | Panics _ => db
      end
  end.

Definition serve_all {E : Engine} (c : Catalog) (reqs : list request) (db : DB)
  : DB :=
  fold_left (serve c) reqs db.

(** ** The enforcer in the words of the specification *)

(** "ordered by creation timestamp descending (ties broken by identity
    descending)": [a] may precede [b]. *)
Definition spec_before {R : Type} (T : Table R) (a b : R) : bool :=
  (row_created_at T b <? row_created_at T a)
  || ((row_created_at T a =? row_created_at T b) && (row_id T b <=? row_id T a)).

(** "select the [maximum] rows ordered by ..." *)
Definition spec_newest {R : Type} (T : Table R) (maximum : Z) (l : list R)
  : list R :=
  firstn (Z.to_nat maximum) (sort_by (spec_before T) l).

(** "If [maximum <= 0]: no-op.  Otherwise ... every row NOT in that set AND
    whose identity is greater than [fixed] is deleted": the rows left.  A row
    is looked up in the set by its identity. *)
Definition spec_enforce_rows {R : Type} (T : Table R) (fixed maximum : Z)
  (l : list R) : list R :=
  if maximum <=? 0 then l
  else filter (fun r => id_in (map (row_id T) (spec_newest T maximum l)) (row_id T r)
                        || (row_id T r <=? fixed)) l.

(** The rows [enforceTableSizeLimits] deletes from a table. *)
Definition enforce_deleted {E : Engine} {R : Type} (T : Table R)
  (fixed maximum : Z) (l : list R) : list R :=
  if maximum <=? 0 then [] else deleted_rows T fixed maximum l.

(** ** What the recorder leaves in place *)

(** The rows of the fixed prefixes of [db] are rows of [db']. *)
Definition fixed_kept (c : Catalog) (db db' : DB) : Prop :=
  (forall r, In r (users db) -> ur_id r <= fixedUsers c -> In r (users db')) /\
  (forall r, In r (pizzas db) -> pr_id r <= fixedPizzas c -> In r (pizzas db')).

(** The identities are keys of the two bounded tables. *)
Definition keys_ok (db : DB) : Prop :=
  NoDup (map ur_id (users db)) /\ NoDup (map pr_id (pizzas db)).

Definition keys_kept (db db' : DB) : Prop := keys_ok db -> keys_ok db'.

(** Every run of [m] relates the store before to the store after by [P]. *)
Definition tx_keeps {G A : Type} (P : DB -> DB -> Prop) (m : Tx G A) : Prop :=
  forall (g : G) (db : DB), P db (snd (snd (m (g, db)))).

(** A key constraint, decided: no identity occurs twice. *)
Fixpoint distinct (l : list Z) : bool :=
  match l with
  | [] => true
  | x :: t => negb (id_in t x) && distinct t
  end.

(** ** Sample tables *)

Definition pizza_row (i t : Z) : PizzaRow :=
  {| pr_id := i; pr_created_at := t; pr_dough_id := 1 |}.

(** Two pizzas recorded at the same instant. *)
Definition tied_pair : list PizzaRow := [pizza_row 1 5; pizza_row 2 5].

(** Two pizzas recorded one after the other. *)
Definition two_pizzas : list PizzaRow := [pizza_row 1 1; pizza_row 2 2].

(** Five pizzas recorded at the same instant. *)
Definition same_instant : list PizzaRow :=
  map (fun i => pizza_row i 7) [1; 2; 3; 4; 5].

(** Five pizzas recorded one after the other. *)
Definition five_pizzas : list PizzaRow :=
  map (fun i => pizza_row i (10 * i)) [1; 2; 3; 4; 5].

(** ** Sample catalogs, environments and stores *)

(** The parameters [NewCatalog] falls back to. *)
Definition default_catalog : Catalog :=
  {| fixedPizzas := 100; fixedUsers := 10; fixedRatings := 10;
     maxPizzas := 5000; maxUsers := 5000; maxRatings := 10000 |}.

(** A catalog that keeps one user and one pizza beside the fixed ones. *)
Definition tiny_catalog : Catalog :=
  {| fixedPizzas := 1; fixedUsers := 1; fixedRatings := 1;
     maxPizzas := 1; maxUsers := 1; maxRatings := 1 |}.

(** An environment in which nothing fails. *)
Definition quiet_env : Env :=
  {| HashPassword := fun p => ("hash:" ++ p, None);
     CheckPassword := fun p h => String.eqb h ("hash:" ++ p);
     InjectErrors := fun _ => None;
     rand_source := fun i => (7 * i + 3)%nat;
     storage_fault := fun _ => None;
     now := 100 |}.

Definition injected : error := Err "injected error".

(** The injection hook armed for recording recommendations. *)
Definition armed_env : Env :=
  {| HashPassword := HashPassword quiet_env;
     CheckPassword := CheckPassword quiet_env;
     InjectErrors :=
       fun name => if String.eqb name "record-recommendation"
                   then Some injected else None;
     rand_source := rand_source quiet_env;
     storage_fault := fun _ => None;
     now := 100 |}.

Definition connection_refused : error := Err "connection refused".

(** A store that has become unreachable. *)
Definition offline_env : Env :=
  {| HashPassword := HashPassword quiet_env;
     CheckPassword := CheckPassword quiet_env;
     InjectErrors := fun _ => None;
     rand_source := rand_source quiet_env;
     storage_fault := fun _ => Some connection_refused;
     now := 100 |}.

(** A store that fails when the enforcer deletes. *)
Definition failing_delete_env : Env :=
  {| HashPassword := HashPassword quiet_env;
     CheckPassword := CheckPassword quiet_env;
     InjectErrors := fun _ => None;
     rand_source := rand_source quiet_env;
     storage_fault :=
       fun s => match s with
                | DeleteExcess => Some (Err "database is locked")
                | _ => None
                end;
     now := 100 |}.

Definition empty_db : DB :=
  {| users := []; users_seq := 0; pizzas := []; pizzas_seq := 0;
     pizza_to_ingredients := []; doughs := [Dough.mk 1];
     ingredients := [Ingredient.mk 1; Ingredient.mk 2] |}.

Definition alice_row : UserRow :=
  {| ur_id := 1; ur_created_at := 50; ur_username := "alice";
     ur_token := "tokenOfAlice0000"; ur_password_hash := "hash:wonderland" |}.

(** A store with one registered user. *)
Definition alice_db : DB := add_user alice_row empty_db.

Definition bob : User.t := User.mk 0 "bob" "" "builder" "".

Definition carol : User.t := User.mk 0 "carol" "old token" "secret" "old digest".

(** A candidate with the reserved name. *)
Definition reserved : User.t := User.mk 0 "default" "" "secret" "".

Definition margherita : Pizza.t :=
  Pizza.mk 0 0 (Some (Dough.mk 1)) [Ingredient.mk 1; Ingredient.mk 2].

(** ** The rest of the catalog *)

(** [func (c *Catalog) GetHistory(ctx, limit int)]: the pizzas ordered by
    [created_at DESC], cut by [Limit(limit)], their relations resolved.
    bun writes no LIMIT clause for a limit that is not positive. *)
Definition GetHistory {E : Engine} (env : Env) (db : DB) (limit : Z)
  : list Pizza.t * option error :=
  match storage_fault env SelectPizza with
  | Some e => ([], Some e)
  | None =>
      let ordered := order_by_desc pr_created_at (pizzas db) in
      (map (pizza_of_row db)
           (if limit <=? 0 then ordered else firstn (Z.to_nat limit) ordered),
       None)
  end.

(** *** strconv *)

(** The value of a decimal digit. *)
Definition digit_of (c : ascii) : option Z :=
  let n := nat_of_ascii c in
  if ((48 <=? n) && (n <=? 57))%nat then Some (Z.of_nat (n - 48)) else None.

(** The loop of [strconv.Atoi] over the digits: [n = n*10 + int(ch)], a
    syntax error at the first character that is not a digit. *)
Fixpoint parse_digits (n : Z) (l : list ascii) : option Z :=
  match l with
  | [] => Some n
  | ch :: rest =>
      match digit_of ch with
      | Some d => parse_digits (n * 10 + d) rest
      | None => None
      end
  end.

Definition min_int : Z := - 2 ^ 63.
Definition max_int : Z := 2 ^ 63 - 1.

(** [strconv.Atoi] on a 64-bit platform: an optional sign, then at least one
    decimal digit and nothing else; a value outside [int] is a range error.
    [None] stands for either error. *)
Definition Atoi (s : string) : option Z :=
  match list_ascii_of_string s with
  | [] => None
  | c :: rest =>
      let negative := Ascii.eqb c "-" in
      let digits := if negative || Ascii.eqb c "+" then rest else c :: rest in
      match digits with
      | [] => None
      | _ =>
          match parse_digits 0 digits with
          | None => None
          | Some n =>
              let v := if negative then - n else n in
              if (min_int <=? v) && (v <=? max_int) then Some v else None
          end
      end
  end.

Definition digit_char (d : Z) : ascii := ascii_of_nat (48 + Z.to_nat d).

(** The decimal digits of [n >= 0] in front of [acc], least significant
    digit first to be produced; [fuel] bounds the number of digits. *)
Fixpoint format_digits (fuel : nat) (n : Z) (acc : list ascii) : list ascii :=
  match fuel with
  | O => acc
  | S fuel' =>
      let acc' := digit_char (n mod 10) :: acc in
      if n <? 10 then acc' else format_digits fuel' (n / 10) acc'
  end.

(** [strconv.Itoa] on [int]: the decimal numeral, with a minus sign for a
    negative number. *)
Definition Itoa (z : Z) : string :=
  if z <? 0 then String "-" (string_of_list_ascii (format_digits 20 (- z) []))
  else string_of_list_ascii (format_digits 20 z []).

(** *** Configuration *)

(** [func envInt(name string, defaultVal int) int]; [environ] is the
    process environment as [os.LookupEnv] reads it. *)
Definition envInt (environ : string -> option string) (name : string)
  (defaultVal : Z) : Z :=
  match environ name with
  | None => defaultVal
  | Some v =>
      match Atoi v with
      | None => defaultVal
      | Some b => b
      end
  end.

(** The parameters [NewCatalog] gives the catalog it returns. *)
Definition catalog_parameters (environ : string -> option string) : Catalog :=
  {| fixedPizzas := envInt environ "QUICKPIZZA_DB_FIXED_PIZZAS" 100;
     fixedUsers := envInt environ "QUICKPIZZA_DB_FIXED_USERS" 10;
     fixedRatings := envInt environ "QUICKPIZZA_DB_FIXED_RATINGS" 10;
     maxPizzas := envInt environ "QUICKPIZZA_DB_MAX_PIZZAS" 5000;
     maxUsers := envInt environ "QUICKPIZZA_DB_MAX_USERS" 5000;
     maxRatings := envInt environ "QUICKPIZZA_DB_MAX_RATINGS" 10000 |}.

(** *** More about the store *)

(** The constraints of the users table: [unique] usernames and tokens. *)
Definition unique_ok (db : DB) : Prop :=
  NoDup (map ur_username (users db)) /\ NoDup (map ur_token (users db)).

(** The rows of a table beyond its fixed prefix. *)
Definition unprotected {R : Type} (T : Table R) (fixed : Z) (l : list R)
  : list R :=
  filter (fun r => fixed <? row_id T r) l.

(** The two bounded tables are within their limits. *)
Definition within_limits (c : Catalog) (db : DB) : Prop :=
  Z.of_nat (List.length (unprotected UserTable (fixedUsers c) (users db)))
  <= maxUsers c /\
  Z.of_nat (List.length (unprotected PizzaTable (fixedPizzas c) (pizzas db)))
  <= maxPizzas c.

(** What a call of the recorder for the one table leaves of the other
    tables: everything. *)
Definition same_but_users (db db' : DB) : Prop :=
  pizzas db' = pizzas db /\ pizzas_seq db' = pizzas_seq db /\
  pizza_to_ingredients db' = pizza_to_ingredients db /\
  doughs db' = doughs db /\ ingredients db' = ingredients db.

Definition same_but_pizzas (db db' : DB) : Prop :=
  users db' = users db /\ users_seq db' = users_seq db /\
  doughs db' = doughs db /\ ingredients db' = ingredients db.

(** The join rows of a pizza, one per ingredient, added to the store. *)
Definition add_joins (pizza_id : Z) (l : list Ingredient.t) (db : DB) : DB :=
  fold_left
    (fun d i => add_pizza_to_ingredients
                  {| PizzaID := pizza_id; IngredientID := Ingredient.ID i |} d)
    l db.

(** *** More samples *)

(** A store that fails at the join row of the second ingredient. *)
Definition failing_join_env : Env :=
  {| HashPassword := HashPassword quiet_env;
     CheckPassword := CheckPassword quiet_env;
     InjectErrors := fun _ => None;
     rand_source := rand_source quiet_env;
     storage_fault :=
       fun s => match s with
                | InsertPizzaToIngredients 1 => Some (Err "disk I/O error")
                | _ => None
                end;
     now := 100 |}.

(** An environment that sets the fixed prefix and the limit of the pizzas
    table to zero. *)
Definition unlimited_pizzas (name : string) : option string :=
  if String.eqb name "QUICKPIZZA_DB_MAX_PIZZAS" then Some "0"
  else if String.eqb name "QUICKPIZZA_DB_FIXED_PIZZAS" then Some "0"
  else None.

(** A store with five pizzas recorded one after the other, the sequence of
    the pizzas table at the last identity assigned. *)
Definition pizzeria : DB :=
  {| users := []; users_seq := 0; pizzas := five_pizzas; pizzas_seq := 5;
     pizza_to_ingredients := []; doughs := [Dough.mk 1];
     ingredients := [Ingredient.mk 1; Ingredient.mk 2] |}.

(** A store with five pizzas recorded at the same instant. *)
Definition rush_hour : DB :=
  {| users := []; users_seq := 0; pizzas := same_instant; pizzas_seq := 5;
     pizza_to_ingredients := []; doughs := [Dough.mk 1];
     ingredients := [Ingredient.mk 1; Ingredient.mk 2] |}.

(** * Properties *)

(** ** Sorting *)

Section SortBy.

Variable R : Type.
Variable before : R -> R -> bool.

Lemma insert_by_perm (x : R) (l : list R) :
  Permutation (x :: l) (insert_by before x l).
Proof.
  induction l as [|y t IH]; simpl.
  - apply Permutation_refl.
  - destruct (before x y).
    + apply Permutation_refl.
    + eapply perm_trans; [apply perm_swap|].
      now apply perm_skip.
Qed.

Lemma sort_by_perm (l : list R) : Permutation l (sort_by before l).
Proof.
  induction l as [|x t IH]; simpl.
  - constructor.
  - eapply perm_trans; [apply perm_skip, IH|].
    apply insert_by_perm.
Qed.

Hypothesis before_total : forall a b, before a b = false -> before b a = true.
Hypothesis before_trans :
  forall a b c, before a b = true -> before b c = true -> before a c = true.

Lemma insert_by_sorted (x : R) (l : list R) :
  StronglySorted (fun a b => before a b = true) l ->
  StronglySorted (fun a b => before a b = true) (insert_by before x l).
Proof.
  induction 1 as [|y t Hs IH Hy]; simpl.
  - repeat constructor.
  - destruct (before x y) eqn:Hxy.
    + constructor.
      * now constructor.
      * constructor; [exact Hxy|].
        eapply Forall_impl; [|exact Hy].
        intros z Hz. now apply before_trans with y.
    + constructor; [exact IH|].
      eapply Permutation_Forall; [apply insert_by_perm|].
      constructor; [now apply before_total | exact Hy].
Qed.

Lemma sort_by_sorted (l : list R) :
  StronglySorted (fun a b => before a b = true) (sort_by before l).
Proof.
  induction l as [|x t IH]; simpl.
  - constructor.
  - now apply insert_by_sorted.
Qed.

End SortBy.

Lemma StronglySorted_impl {R : Type} (P Q : R -> R -> Prop) (l : list R) :
  (forall a b, P a b -> Q a b) -> StronglySorted P l -> StronglySorted Q l.
Proof.
  intros HPQ. induction 1 as [|x t Hs IH Hx]; constructor; auto.
  eapply Forall_impl; [|exact Hx]. intros; now apply HPQ.
Qed.

Lemma stable_order_sorted {R : Type} (key : R -> Z) (l : list R) :
  StronglySorted (desc key) (stable_order key l).
Proof.
  unfold stable_order.
  apply StronglySorted_impl with (P := fun a b => (key b <=? key a) = true).
  - intros a b H. unfold desc. lia.
  - apply sort_by_sorted; intros; lia.
Qed.

#[export] Instance stable_engine_laws : EngineLaws stable_engine.
Proof.
  split; intros; simpl.
  - apply sort_by_perm.
  - apply stable_order_sorted.
Qed.

(** Two descending orderings of the same rows agree when no two rows share
    a key. *)
Lemma sorted_perm_unique {R : Type} (key : R -> Z) (l1 : list R) :
  forall l2 : list R,
    NoDup (map key l1) ->
    StronglySorted (desc key) l1 -> StronglySorted (desc key) l2 ->
    Permutation l1 l2 -> l1 = l2.
Proof.
  induction l1 as [|a t1 IH]; intros l2 Hnd H1 H2 Hp.
  - apply Permutation_nil in Hp. now subst.
  - destruct l2 as [|b t2].
    + apply Permutation_sym, Permutation_nil in Hp. discriminate.
    + simpl in Hnd. inversion Hnd as [|? ? Hnotin Hnd']; subst.
      inversion H1 as [|? ? Hs1 Ha]; subst.
      inversion H2 as [|? ? Hs2 Hb]; subst.
      assert (Hab : a = b).
      { assert (Ha2 : In a (b :: t2))
          by (eapply Permutation_in; [exact Hp | now left]).
        assert (Hb1 : In b (a :: t1))
          by (eapply Permutation_in;
              [apply Permutation_sym; exact Hp | now left]).
        destruct Ha2 as [->|Ha2]; [reflexivity|].
        destruct Hb1 as [->|Hb1]; [reflexivity|].
        exfalso. apply Hnotin.
        rewrite Forall_forall in Ha, Hb.
        specialize (Ha _ Hb1). specialize (Hb _ Ha2). unfold desc in *.
        replace (key a) with (key b) by lia.
        now apply in_map. }
      subst b. f_equal.
      apply IH; auto.
      now apply Permutation_cons_inv in Hp.
Qed.

Lemma spec_before_total {R : Type} (T : Table R) (a b : R) :
  spec_before T a b = false -> spec_before T b a = true.
Proof.
  unfold spec_before.
  rewrite orb_false_iff, andb_false_iff, orb_true_iff, andb_true_iff.
  rewrite Z.ltb_ge, Z.ltb_lt, !Z.eqb_neq, Z.eqb_eq, Z.leb_gt, Z.leb_le. lia.
Qed.

Lemma spec_before_trans {R : Type} (T : Table R) (a b c : R) :
  spec_before T a b = true -> spec_before T b c = true ->
  spec_before T a c = true.
Proof.
  unfold spec_before.
  rewrite !orb_true_iff, !andb_true_iff.
  rewrite !Z.ltb_lt, !Z.eqb_eq, !Z.leb_le. lia.
Qed.

Lemma spec_order_sorted {R : Type} (T : Table R) (l : list R) :
  StronglySorted (desc (row_created_at T)) (sort_by (spec_before T) l).
Proof.
  apply StronglySorted_impl with (P := fun a b => spec_before T a b = true).
  - intros a b. unfold spec_before, desc.
    rewrite orb_true_iff, andb_true_iff, Z.ltb_lt, Z.eqb_eq. lia.
  - apply sort_by_sorted.
    + apply spec_before_total.
    + apply spec_before_trans.
Qed.

(** ** Lists *)

Lemma id_in_In (ids : list Z) (i : Z) : id_in ids i = true <-> In i ids.
Proof.
  unfold id_in. rewrite existsb_exists. split.
  - intros (x & Hx & Heq). apply Z.eqb_eq in Heq. now subst.
  - intros H. exists i. split; [exact H | apply Z.eqb_refl].
Qed.

Lemma id_in_ext (ids ids' : list Z) (i : Z) :
  (In i ids <-> In i ids') -> id_in ids i = id_in ids' i.
Proof.
  intros H. destruct (id_in ids i) eqn:H1, (id_in ids' i) eqn:H2; auto.
  - apply id_in_In, H, id_in_In in H1. congruence.
  - apply id_in_In, H, id_in_In in H2. congruence.
Qed.

Lemma NoDup_map_inj_in {A B : Type} (f : A -> B) (l : list A) (a b : A) :
  NoDup (map f l) -> In a l -> In b l -> f a = f b -> a = b.
Proof.
  induction l as [|x t IH]; simpl; intros Hnd Ha Hb Heq; [contradiction|].
  inversion Hnd as [|? ? Hnotin Hnd']; subst.
  destruct Ha as [->|Ha], Hb as [->|Hb]; auto.
  - exfalso. apply Hnotin. rewrite Heq. now apply in_map.
  - exfalso. apply Hnotin. rewrite <- Heq. now apply in_map.
Qed.

Lemma NoDup_firstn_of {A : Type} (n : nat) (l : list A) :
  NoDup l -> NoDup (firstn n l).
Proof.
  intros H. rewrite <- (firstn_skipn n l) in H.
  now apply NoDup_app_remove_r in H.
Qed.

Lemma In_firstn {A : Type} (n : nat) (l : list A) (x : A) :
  In x (firstn n l) -> In x l.
Proof.
  intros H. rewrite <- (firstn_skipn n l). apply in_or_app. now left.
Qed.

Lemma filter_split_perm {A : Type} (p : A -> bool) (l : list A) :
  Permutation l (filter (fun x => negb (p x)) l ++ filter p l).
Proof.
  induction l as [|x t IH]; simpl; [constructor|].
  destruct (p x); simpl.
  - now apply Permutation_cons_app.
  - now constructor.
Qed.

Lemma filter_orb_length {A : Type} (p q : A -> bool) (l : list A) :
  List.length (filter (fun x => p x || q x) l) =
  (List.length (filter p l) +
   List.length (filter (fun x => negb (p x) && q x) l))%nat.
Proof.
  induction l as [|x t IH]; simpl; [reflexivity|].
  destruct (p x), (q x); simpl; lia.
Qed.

Lemma map_filter_comp {A B : Type} (f : A -> B) (p : B -> bool) (l : list A) :
  map f (filter (fun x => p (f x)) l) = filter p (map f l).
Proof.
  induction l as [|x t IH]; simpl; [reflexivity|].
  destruct (p (f x)); simpl; now rewrite IH.
Qed.

Lemma filter_all {A : Type} (p : A -> bool) (l : list A) :
  (forall x, In x l -> p x = true) -> filter p l = l.
Proof.
  induction l as [|x t IH]; simpl; intros H; [reflexivity|].
  rewrite (H x) by now left. f_equal. apply IH. intros; apply H; now right.
Qed.

(** A NoDup list [ids] drawn from a NoDup list [l] is met exactly
    [length ids] times in [l]. *)
Lemma filter_id_in_length (ids l : list Z) :
  NoDup l -> NoDup ids -> incl ids l ->
  List.length (filter (id_in ids) l) = List.length ids.
Proof.
  intros Hl Hids Hincl.
  apply Permutation_length, NoDup_Permutation.
  - now apply NoDup_filter.
  - exact Hids.
  - intros x. rewrite filter_In, id_in_In. split; [tauto|].
    intros H. split; [now apply Hincl | exact H].
Qed.

(** ** The bounded table enforcer *)

Section Enforcer.

Context {E : Engine} {R : Type} (T : Table R).

(** The rows the DELETE spares: those the subquery lists and those of the
    fixed prefix. *)
Lemma spared (ids : list Z) (fixed : Z) (r : R) :
  negb (doomed T ids fixed r) = id_in ids (row_id T r) || (row_id T r <=? fixed).
Proof.
  unfold doomed. rewrite negb_andb, negb_involutive. f_equal.
  destruct (Z.ltb_spec fixed (row_id T r)), (Z.leb_spec (row_id T r) fixed);
    simpl; auto; lia.
Qed.

Lemma delete_excess_spared (fixed maximum : Z) (l : list R) :
  delete_excess T fixed maximum l =
  filter (fun r => id_in (newest_ids T maximum l) (row_id T r)
                   || (row_id T r <=? fixed)) l.
Proof.
  unfold delete_excess. apply filter_ext. intros r. apply spared.
Qed.

Lemma enforce_rows_In (fixed maximum : Z) (l : list R) (r : R) :
  In r (enforce_rows T fixed maximum l) <->
  In r l /\ (maximum <= 0 \/ In (row_id T r) (newest_ids T maximum l)
             \/ row_id T r <= fixed).
Proof.
  unfold enforce_rows. destruct (Z.leb_spec maximum 0) as [Hm|Hm].
  - split; [intros H; split; auto | tauto].
  - rewrite delete_excess_spared, filter_In, orb_true_iff, id_in_In, Z.leb_le.
    intuition lia.
Qed.

Lemma enforce_deleted_In (fixed maximum : Z) (l : list R) (r : R) :
  In r (enforce_deleted T fixed maximum l) <->
  0 < maximum /\ In r l /\ ~ In (row_id T r) (newest_ids T maximum l)
  /\ fixed < row_id T r.
Proof.
  unfold enforce_deleted, deleted_rows, doomed.
  destruct (Z.leb_spec maximum 0) as [Hm|Hm].
  - simpl. split; [contradiction | lia].
  - rewrite filter_In, andb_true_iff, negb_true_iff, Z.ltb_lt.
    rewrite <- id_in_In, not_true_iff_false. intuition lia.
Qed.

(** Every table is split by the enforcer into the rows left and the rows
    deleted. *)
Lemma enforce_rows_partition (fixed maximum : Z) (l : list R) :
  Permutation l (enforce_rows T fixed maximum l
                 ++ enforce_deleted T fixed maximum l).
Proof.
  unfold enforce_rows, enforce_deleted, delete_excess, deleted_rows.
  destruct (maximum <=? 0).
  - rewrite app_nil_r. apply Permutation_refl.
  - apply filter_split_perm.
Qed.

(** A row of the fixed prefix is never deleted. *)
Lemma enforce_rows_fixed (fixed maximum : Z) (l : list R) (r : R) :
  In r l -> row_id T r <= fixed -> In r (enforce_rows T fixed maximum l).
Proof.
  intros Hin Hid. apply enforce_rows_In. tauto.
Qed.

Lemma enforce_rows_incl (fixed maximum : Z) (l : list R) (r : R) :
  In r (enforce_rows T fixed maximum l) -> In r l.
Proof.
  intros H. now apply enforce_rows_In in H.
Qed.

Lemma newest_ids_firstn (maximum : Z) (l : list R) :
  newest_ids T maximum l =
  map (row_id T)
      (firstn (Z.to_nat maximum) (order_by_desc (row_created_at T) l)).
Proof.
  unfold newest_ids. apply firstn_map.
Qed.

Context {L : EngineLaws E}.

(** With identities that are a key, the subquery lists the identity of a
    row exactly when the row is among the first [maximum] of the
    ordering. *)
Lemma newest_ids_rows (maximum : Z) (l : list R) (r : R) :
  NoDup (map (row_id T) l) -> In r l ->
  In (row_id T r) (newest_ids T maximum l) <->
  In r (firstn (Z.to_nat maximum) (order_by_desc (row_created_at T) l)).
Proof.
  intros Hnd Hin. rewrite newest_ids_firstn. split.
  - intros H. apply in_map_iff in H. destruct H as (r' & Heq & Hr').
    assert (r' = r); [|now subst].
    pose proof (order_by_desc_perm R (row_created_at T) l) as Hp.
    apply (NoDup_map_inj_in (row_id T) l); auto.
    eapply Permutation_in; [apply Permutation_sym, Hp|].
    eapply In_firstn, Hr'.
  - apply in_map.
Qed.

Lemma newest_ids_NoDup (maximum : Z) (l : list R) :
  NoDup (map (row_id T) l) -> NoDup (newest_ids T maximum l).
Proof.
  intros Hnd. unfold newest_ids. apply NoDup_firstn_of.
  eapply Permutation_NoDup; [|exact Hnd].
  apply Permutation_map, order_by_desc_perm.
Qed.

Lemma newest_ids_incl (maximum : Z) (l : list R) :
  incl (newest_ids T maximum l) (map (row_id T) l).
Proof.
  intros i Hi. unfold newest_ids in Hi. apply In_firstn in Hi.
  eapply Permutation_in; [|exact Hi].
  apply Permutation_sym, Permutation_map, order_by_desc_perm.
Qed.

Lemma newest_ids_length (maximum : Z) (l : list R) :
  0 <= maximum -> maximum <= Z.of_nat (List.length l) ->
  Z.of_nat (List.length (newest_ids T maximum l)) = maximum.
Proof.
  intros H0 Hlen. unfold newest_ids.
  rewrite length_firstn, length_map.
  rewrite <- (Permutation_length (order_by_desc_perm R (row_created_at T) l)).
  lia.
Qed.

(** Without colliding timestamps the engine's ordering is the one of the
    specification. *)
Lemma order_by_desc_spec (l : list R) :
  NoDup (map (row_created_at T) l) ->
  order_by_desc (row_created_at T) l = sort_by (spec_before T) l.
Proof.
  intros Hnd.
  apply (sorted_perm_unique (row_created_at T)).
  - eapply Permutation_NoDup; [|exact Hnd].
    apply Permutation_map, order_by_desc_perm.
  - apply order_by_desc_sorted.
  - apply spec_order_sorted.
  - eapply perm_trans; [apply Permutation_sym, order_by_desc_perm|].
    apply sort_by_perm.
Qed.

Lemma enforce_rows_spec (fixed maximum : Z) (l : list R) :
  NoDup (map (row_created_at T) l) ->
  enforce_rows T fixed maximum l = spec_enforce_rows T fixed maximum l.
Proof.
  intros Hnd. unfold enforce_rows, spec_enforce_rows.
  destruct (maximum <=? 0); [reflexivity|].
  rewrite delete_excess_spared.
  rewrite newest_ids_firstn, order_by_desc_spec by exact Hnd.
  reflexivity.
Qed.

End Enforcer.

(** ** The enforcer inside a transaction *)

(** A call of [enforceTableSizeLimits] either succeeds and leaves in the
    table what [enforce_rows] leaves, or fails at its DELETE and leaves the
    store as it found it. *)
Lemma enforceTableSizeLimits_rows {E : Engine} {G R : Type} (env : Env)
  (T : Table R) (fixed maximum : Z) (g : G) (db : DB) :
  (forall l d, rows T (set_rows T l d) = l) ->
  let out := enforceTableSizeLimits env T fixed maximum (g, db) in
  (fst out = Ok tt /\
   rows T (snd (snd out)) = enforce_rows T fixed maximum (rows T db)) \/
  (0 < maximum /\
   exists e, storage_fault env DeleteExcess = Some e /\ out = (Fail e, (g, db))).
Proof.
  intros Hlens. unfold enforceTableSizeLimits, enforce_rows.
  destruct (Z.leb_spec maximum 0) as [Hm|Hm]; simpl.
  - left. auto.
  - destruct (storage_fault env DeleteExcess) as [e|]; simpl.
    + right. split; [exact Hm|]. now exists e.
    + left. split; [reflexivity | apply Hlens].
Qed.

Lemma UserTable_rows (l : list UserRow) (d : DB) :
  rows UserTable (set_rows UserTable l d) = l.
Proof. reflexivity. Qed.

Lemma PizzaTable_rows (l : list PizzaRow) (d : DB) :
  rows PizzaTable (set_rows PizzaTable l d) = l.
Proof. reflexivity. Qed.

(** ** Running the enforcer again *)

Lemma firstn_filter_prefix {A : Type} (p : A -> bool) (n : nat) (l : list A) :
  (forall x, In x (firstn n l) -> p x = true) ->
  firstn n (filter p l) = firstn n l.
Proof.
  revert n. induction l as [|x t IH]; intros [|n] H; simpl in *; auto.
  rewrite (H x) by now left. simpl. f_equal.
  apply IH. intros; apply H; now right.
Qed.

Lemma filter_perm {A : Type} (p : A -> bool) (l l' : list A) :
  Permutation l l' -> Permutation (filter p l) (filter p l').
Proof.
  induction 1 as [|x l l' Hp IH|x y l|l l' l'' H1 IH1 H2 IH2]; simpl.
  - constructor.
  - destruct (p x); [now constructor | exact IH].
  - destruct (p x), (p y); try apply Permutation_refl. apply perm_swap.
  - now apply perm_trans with (filter p l').
Qed.

Lemma filter_sorted {A : Type} (le : A -> A -> Prop) (p : A -> bool)
  (l : list A) :
  StronglySorted le l -> StronglySorted le (filter p l).
Proof.
  induction 1 as [|x t Hs IH Hx]; simpl; [constructor|].
  destruct (p x); [|exact IH].
  constructor; [exact IH|].
  rewrite Forall_forall in *. intros y Hy. apply Hx.
  now apply filter_In in Hy.
Qed.

Lemma NoDup_map_filter {A B : Type} (keep : A -> bool) (key : A -> B)
  (rows : list A) :
  NoDup (map key rows) -> NoDup (map key (filter keep rows)).
Proof.
  induction rows as [|x t IH]; simpl; intros H; [constructor|].
  inversion H as [|? ? Hnotin Hnd]; subst.
  destruct (keep x); simpl; [|now apply IH].
  constructor; [|now apply IH].
  intros Hin. apply Hnotin.
  apply in_map_iff in Hin. destruct Hin as (y & Heq & Hy).
  apply filter_In in Hy. rewrite <- Heq. apply in_map. tauto.
Qed.

(** Removing rows from a table without colliding timestamps removes them
    from its ordering, whatever the engine. *)
Lemma order_by_desc_filter_distinct {E : Engine} {L : EngineLaws E} {R : Type}
  (key : R -> Z) (p : R -> bool) (l : list R) :
  NoDup (map key l) ->
  order_by_desc key (filter p l) = filter p (order_by_desc key l).
Proof.
  intros Hnd. apply (sorted_perm_unique key).
  - eapply Permutation_NoDup;
      [apply Permutation_map, order_by_desc_perm|].
    now apply NoDup_map_filter.
  - apply order_by_desc_sorted.
  - apply filter_sorted, order_by_desc_sorted.
  - eapply perm_trans; [apply Permutation_sym, order_by_desc_perm|].
    apply filter_perm, order_by_desc_perm.
Qed.

(** The sorter that keeps tied rows in scan order does so for every table. *)
Lemma insert_by_front {A : Type} (before : A -> A -> bool) (x : A) (l : list A) :
  Forall (fun z => before x z = true) l -> insert_by before x l = x :: l.
Proof.
  intros H. destruct l as [|y t]; [reflexivity|].
  simpl. inversion H as [|? ? Hy _]; subst. now rewrite Hy.
Qed.

Lemma insert_by_filter {A : Type} (before : A -> A -> bool) (p : A -> bool)
  (x : A) (l : list A) :
  (forall a b c, before a b = true -> before b c = true -> before a c = true) ->
  StronglySorted (fun a b => before a b = true) l ->
  filter p (insert_by before x l) =
  if p x then insert_by before x (filter p l) else filter p l.
Proof.
  intros Htrans. induction 1 as [|y t Hs IH Hy]; simpl.
  - now destruct (p x).
  - destruct (before x y) eqn:Hxy; simpl.
    + destruct (p x) eqn:Hpx; [|reflexivity].
      destruct (p y) eqn:Hpy; simpl.
      * now rewrite Hxy.
      * symmetry. apply insert_by_front.
        rewrite Forall_forall in *. intros z Hz.
        apply filter_In in Hz. apply Htrans with y; auto. now apply Hy.
    + rewrite IH. destruct (p y) eqn:Hpy, (p x) eqn:Hpx; simpl;
        rewrite ?Hxy; reflexivity.
Qed.

Lemma sort_by_filter {A : Type} (before : A -> A -> bool) (p : A -> bool)
  (l : list A) :
  (forall a b, before a b = false -> before b a = true) ->
  (forall a b c, before a b = true -> before b c = true -> before a c = true) ->
  sort_by before (filter p l) = filter p (sort_by before l).
Proof.
  intros Htot Htrans. induction l as [|x t IH]; simpl; [reflexivity|].
  rewrite insert_by_filter; auto using sort_by_sorted.
  destruct (p x); simpl; now rewrite IH.
Qed.

Lemma stable_order_filter {R : Type} (key : R -> Z) (p : R -> bool)
  (l : list R) :
  stable_order key (filter p l) = filter p (stable_order key l).
Proof.
  unfold stable_order. apply sort_by_filter; intros; lia.
Qed.

Section Again.

Context {E : Engine} {R : Type} (T : Table R).

(** The second run lists the ordering of the table the first run left.
    When that is the first ordering without the deleted rows, the subquery
    selects the same identities and nothing more is deleted. *)
Lemma enforce_rows_again (fixed maximum : Z) (l : list R) :
  order_by_desc (row_created_at T) (delete_excess T fixed maximum l) =
  filter (fun r => negb (doomed T (newest_ids T maximum l) fixed r))
         (order_by_desc (row_created_at T) l) ->
  enforce_rows T fixed maximum (enforce_rows T fixed maximum l) =
  enforce_rows T fixed maximum l.
Proof.
  unfold enforce_rows. destruct (maximum <=? 0); [reflexivity|].
  intros Hord.
  assert (Hids : newest_ids T maximum (delete_excess T fixed maximum l) =
                 newest_ids T maximum l).
  { rewrite !newest_ids_firstn. rewrite Hord. f_equal.
    apply firstn_filter_prefix. intros x Hx.
    rewrite spared. apply orb_true_iff. left. apply id_in_In.
    rewrite newest_ids_firstn. now apply in_map. }
  unfold delete_excess at 1. rewrite Hids.
  apply filter_all. intros x Hx.
  unfold delete_excess in Hx. now apply filter_In in Hx.
Qed.

End Again.

Lemma distinct_NoDup (l : list Z) : distinct l = true -> NoDup l.
Proof.
  induction l as [|x t IH]; simpl; intros H; [constructor|].
  apply andb_true_iff in H. destruct H as [Hx Ht].
  constructor; [|now apply IH].
  rewrite <- id_in_In. now destruct (id_in t x).
Qed.

(** ** C1: which rows the enforcer deletes *)

(** C1, as stated, fails: the code orders the subquery by [created_at]
    alone.  With an engine that lists rows of equal timestamp in storage
    order, of two pizzas recorded at the same instant the enforcer with
    [maximum = 1] deletes pizza 2, although pizza 2 is the one row "among
    the maximum rows ordered by creation timestamp descending with ties
    broken by identity descending". *)
Lemma enforce_ignores_identity_tie_break :
  ~ (forall r : PizzaRow,
       In r (enforce_deleted (E := stable_engine) PizzaTable 0 1 tied_pair) <->
       In r tied_pair /\
       ~ (In r (spec_newest PizzaTable 1 tied_pair) \/ pr_id r <= 0)).
Proof.
  intros H.
  destruct (H (pizza_row 2 5)) as [H1 _].
  destruct H1 as [_ H1].
  - vm_compute. now left.
  - apply H1. left. vm_compute. now left.
Qed.

(** C1 (amended): for every table with identities as a key, every fixed
    and every maximum, the enforcer deletes exactly the rows that are
    neither among the first [maximum] rows of the engine's ordering of the
    table by creation timestamp descending, nor have identity less than or
    equal to [fixed]; when [maximum <= 0] it deletes nothing.  The ordering
    is a permutation of the table in descending order of timestamp; the
    order among rows of equal timestamp is the engine's, and when no two
    rows share a timestamp it is the ordering with ties broken by identity
    descending. *)
Theorem enforce_deletes_outside_newest_and_fixed
  {E : Engine} (L : EngineLaws E) {R : Type} (T : Table R)
  (fixed maximum : Z) (l : list R) :
  NoDup (map (row_id T) l) ->
  let ordered := order_by_desc (row_created_at T) l in
  Permutation l ordered /\
  StronglySorted (desc (row_created_at T)) ordered /\
  Permutation l (enforce_rows T fixed maximum l
                 ++ enforce_deleted T fixed maximum l) /\
  (forall r, In r (enforce_deleted T fixed maximum l) <->
             0 < maximum /\ In r l /\
             ~ (In r (firstn (Z.to_nat maximum) ordered)
                \/ row_id T r <= fixed)) /\
  (maximum <= 0 ->
   enforce_deleted T fixed maximum l = [] /\
   enforce_rows T fixed maximum l = l) /\
  (NoDup (map (row_created_at T) l) ->
   ordered = sort_by (spec_before T) l).
Proof.
  intros Hnd ordered. repeat split.
  - apply order_by_desc_perm.
  - apply order_by_desc_sorted.
  - apply enforce_rows_partition.
  - apply enforce_deleted_In in H. tauto.
  - apply enforce_deleted_In in H. tauto.
  - apply enforce_deleted_In in H. destruct H as (_ & Hin & Hnot & Hfix).
    intros [Hnew|Hle]; [|lia].
    apply Hnot. now apply newest_ids_rows.
  - intros (Hmax & Hin & Hnot). apply enforce_deleted_In.
    repeat split; auto.
    + intros Hids. apply Hnot. left.
      now apply (newest_ids_rows T maximum l r Hnd Hin).
    + destruct (Z.le_gt_cases (row_id T r) fixed); [tauto | lia].
  - unfold enforce_deleted. now rewrite (proj2 (Z.leb_le maximum 0) H).
  - unfold enforce_rows. now rewrite (proj2 (Z.leb_le maximum 0) H).
  - intros Hts. now apply order_by_desc_spec.
Qed.

Lemma enforce_deletes_outside_newest_and_fixed_witness :
  NoDup (map pr_id five_pizzas) /\
  (forall r,
     In r (enforce_deleted (E := stable_engine) PizzaTable 1 2 five_pizzas) <->
     0 < 2 /\ In r five_pizzas /\
     ~ (In r (firstn 2 (stable_order pr_created_at five_pizzas))
        \/ pr_id r <= 1)).
Proof.
  assert (Hnd : NoDup (map (row_id PizzaTable) five_pizzas))
    by (apply distinct_NoDup; reflexivity).
  split; [exact Hnd|].
  exact (proj1 (proj2 (proj2 (proj2
           (enforce_deletes_outside_newest_and_fixed
              stable_engine_laws PizzaTable 1 2 five_pizzas Hnd))))).
Defined.

(** ** C5: how many rows the enforcer leaves *)

(** The rows of the fixed prefix that the subquery does not list. *)
Lemma enforce_rows_length {E : Engine} {L : EngineLaws E} {R : Type}
  (T : Table R) (fixed maximum : Z) (l : list R) :
  NoDup (map (row_id T) l) ->
  0 < maximum -> maximum <= Z.of_nat (List.length l) ->
  Z.of_nat (List.length (enforce_rows T fixed maximum l)) =
  maximum +
  Z.of_nat (List.length
              (filter (fun r => negb (id_in (newest_ids T maximum l) (row_id T r))
                                && (row_id T r <=? fixed)) l)).
Proof.
  intros Hnd Hpos Hlen. unfold enforce_rows.
  rewrite (proj2 (Z.leb_gt maximum 0) Hpos).
  rewrite delete_excess_spared.
  rewrite (filter_orb_length
             (fun r => id_in (newest_ids T maximum l) (row_id T r))
             (fun r => row_id T r <=? fixed)).
  rewrite Nat2Z.inj_add. f_equal.
  rewrite <- (length_map (row_id T)).
  rewrite (map_filter_comp (row_id T) (id_in (newest_ids T maximum l))).
  rewrite filter_id_in_length.
  - apply newest_ids_length; [exact L | lia | lia].
  - exact Hnd.
  - now apply newest_ids_NoDup.
  - now apply newest_ids_incl.
Qed.

(** C5, as stated, fails: with [fixed = 1] and [maximum = 1], of two
    pizzas recorded one after the other (more rows than [maximum], no
    timestamps colliding) both remain, not exactly one: pizza 2 is the
    newest and pizza 1 is protected. *)
Lemma enforce_leaves_more_than_maximum :
  (1 < List.length two_pizzas)%nat /\
  enforce_rows (E := stable_engine) PizzaTable 1 1 two_pizzas = two_pizzas /\
  List.length (enforce_rows (E := stable_engine) PizzaTable 1 1 two_pizzas)
  <> 1%nat.
Proof.
  repeat split; [simpl; lia | vm_compute; discriminate].
Qed.

(** The same table under any engine: the two timestamps differ. *)
Lemma two_pizzas_remain {E : Engine} {L : EngineLaws E} :
  enforce_rows PizzaTable 1 1 two_pizzas = two_pizzas.
Proof.
  rewrite (enforce_rows_spec PizzaTable (L := L)).
  - reflexivity.
  - apply distinct_NoDup. reflexivity.
Qed.

(** C5 (amended): for every bounded table (identities a key) with
    parameters [fixed = F] and [maximum > 0] that holds more than
    [maximum] rows, after enforcement the rows that remain are [maximum]
    in number plus the rows with identity at most [F] that are not among
    the [maximum] most recent; so at least [maximum] rows remain, and every
    row with identity at most [F] is among them regardless of recency. *)
Theorem enforce_row_count
  {E : Engine} (L : EngineLaws E) {R : Type} (T : Table R)
  (F maximum : Z) (l : list R) :
  NoDup (map (row_id T) l) ->
  0 < maximum -> maximum < Z.of_nat (List.length l) ->
  Z.of_nat (List.length (enforce_rows T F maximum l)) =
  maximum +
  Z.of_nat (List.length
              (filter (fun r => negb (id_in (newest_ids T maximum l) (row_id T r))
                                && (row_id T r <=? F)) l)) /\
  maximum <= Z.of_nat (List.length (enforce_rows T F maximum l)) /\
  (forall r, In r l -> row_id T r <= F -> In r (enforce_rows T F maximum l)).
Proof.
  intros Hnd Hpos Hlen.
  pose proof (enforce_rows_length T F maximum l Hnd Hpos) as Hcount.
  repeat split.
  - apply Hcount. lia.
  - rewrite Hcount; lia.
  - intros r. apply enforce_rows_fixed.
Qed.

Lemma enforce_row_count_witness :
  NoDup (map pr_id five_pizzas) /\ 0 < 2 /\
  2 < Z.of_nat (List.length five_pizzas) /\
  Z.of_nat (List.length
              (enforce_rows (E := stable_engine) PizzaTable 1 2 five_pizzas))
  = 2 + 1.
Proof.
  assert (Hnd : NoDup (map (row_id PizzaTable) five_pizzas))
    by (apply distinct_NoDup; reflexivity).
  assert (Hpos : 0 < 2) by lia.
  assert (Hlen : 2 < Z.of_nat (List.length five_pizzas)) by (simpl; lia).
  split; [exact Hnd|]. split; [exact Hpos|]. split; [exact Hlen|].
  exact (proj1 (enforce_row_count stable_engine_laws PizzaTable 1 2
                  five_pizzas Hnd Hpos Hlen)).
Defined.

(** ** C6: running the enforcer twice *)

(** With the engine that lists tied rows in storage order a second run
    changes nothing, for every table. *)
Lemma enforce_rows_idempotent_stable {R : Type} (T : Table R)
  (fixed maximum : Z) (l : list R) :
  enforce_rows (E := stable_engine) T fixed maximum
    (enforce_rows (E := stable_engine) T fixed maximum l) =
  enforce_rows (E := stable_engine) T fixed maximum l.
Proof.
  apply enforce_rows_again. unfold delete_excess at 1.
  apply stable_order_filter.
Qed.

(** Under any engine a second run changes nothing when no two rows share a
    creation timestamp, or when the engine lists the rows the first run left
    in the order in which it listed them before. *)
Lemma enforce_rows_idempotent
  {E : Engine} {R : Type} (T : Table R) (fixed maximum : Z) (l : list R) :
  (EngineLaws E /\ NoDup (map (row_created_at T) l)) \/
  order_by_desc (row_created_at T) (delete_excess T fixed maximum l) =
  filter (fun r => negb (doomed T (newest_ids T maximum l) fixed r))
         (order_by_desc (row_created_at T) l) ->
  enforce_rows T fixed maximum (enforce_rows T fixed maximum l) =
  enforce_rows T fixed maximum l /\
  enforce_deleted T fixed maximum (enforce_rows T fixed maximum l) = [].
Proof.
  intros H.
  assert (Hagain : enforce_rows T fixed maximum (enforce_rows T fixed maximum l)
                   = enforce_rows T fixed maximum l).
  { apply enforce_rows_again.
    destruct H as [[L Hts]|H]; [|exact H].
    unfold delete_excess at 1. now apply order_by_desc_filter_distinct. }
  split; [exact Hagain|].
  pose proof (enforce_rows_partition T fixed maximum
                (enforce_rows T fixed maximum l)) as Hp.
  rewrite Hagain in Hp.
  apply Permutation_length in Hp. rewrite length_app in Hp.
  apply length_zero_iff_nil. lia.
Qed.

Lemma delete_excess_again_stable {R : Type} (T : Table R)
  (fixed maximum : Z) (l : list R) :
  (maximum <=? 0) = false ->
  delete_excess (E := stable_engine) T fixed maximum
    (delete_excess (E := stable_engine) T fixed maximum l) =
  delete_excess (E := stable_engine) T fixed maximum l.
Proof.
  intros Hm.
  pose proof (enforce_rows_idempotent_stable T fixed maximum l) as H.
  unfold enforce_rows in H. now rewrite Hm in H.
Qed.

(** C6: enforcement is idempotent.  The store listing rows of equal
    timestamp in scan order, for every table and every [fixed] and
    [maximum] a second run of the enforcer right after the first leaves the
    table as the first left it and deletes no row; and in a transaction, a
    call of [enforceTableSizeLimits] on the users or the pizzas table that
    follows a call which returned no error leaves the whole store
    unchanged, whether it succeeds or fails. *)
Theorem enforce_twice_changes_nothing
  {R : Type} (T : Table R) (fixed maximum : Z) (l : list R) :
  (let once := enforce_rows (E := stable_engine) T fixed maximum l in
   enforce_rows (E := stable_engine) T fixed maximum once = once /\
   enforce_deleted (E := stable_engine) T fixed maximum once = []) /\
  (forall (G : Type) (env env' : Env) (g g1 : G) (db db1 : DB),
     enforceTableSizeLimits (E := stable_engine) env UserTable fixed maximum
       (g, db) = (Ok tt, (g1, db1)) ->
     snd (enforceTableSizeLimits (E := stable_engine) env' UserTable fixed
            maximum (g1, db1)) = (g1, db1)) /\
  (forall (G : Type) (env env' : Env) (g g1 : G) (db db1 : DB),
     enforceTableSizeLimits (E := stable_engine) env PizzaTable fixed maximum
       (g, db) = (Ok tt, (g1, db1)) ->
     snd (enforceTableSizeLimits (E := stable_engine) env' PizzaTable fixed
            maximum (g1, db1)) = (g1, db1)).
Proof.
  split; [|split].
  - cbv zeta.
    pose proof (enforce_rows_idempotent_stable T fixed maximum l) as Hagain.
    split; [exact Hagain|].
    pose proof (enforce_rows_partition (E := stable_engine) T fixed maximum
                  (enforce_rows (E := stable_engine) T fixed maximum l)) as Hp.
    rewrite Hagain in Hp.
    apply Permutation_length in Hp. rewrite length_app in Hp.
    apply length_zero_iff_nil. lia.
  - intros G env env' g g1 db db1. unfold enforceTableSizeLimits.
    destruct (maximum <=? 0) eqn:Hm.
    + intros H. inversion H; subst. reflexivity.
    + destruct (storage_fault env DeleteExcess); [discriminate|].
      intros H. inversion H; subst. clear H.
      destruct (storage_fault env' DeleteExcess); [reflexivity|].
      cbn [snd rows set_rows UserTable users set_users].
      rewrite (delete_excess_again_stable UserTable fixed maximum (users db) Hm).
      reflexivity.
  - intros G env env' g g1 db db1. unfold enforceTableSizeLimits.
    destruct (maximum <=? 0) eqn:Hm.
    + intros H. inversion H; subst. reflexivity.
    + destruct (storage_fault env DeleteExcess); [discriminate|].
      intros H. inversion H; subst. clear H.
      destruct (storage_fault env' DeleteExcess); [reflexivity|].
      cbn [snd rows set_rows PizzaTable pizzas set_pizzas].
      rewrite (delete_excess_again_stable PizzaTable fixed maximum (pizzas db)
                 Hm).
      reflexivity.
Qed.

Lemma enforce_twice_changes_nothing_witness :
  enforceTableSizeLimits (E := stable_engine) quiet_env PizzaTable 2 3
    (tt, rush_hour)
  = (Ok tt,
     (tt, set_pizzas [pizza_row 1 7; pizza_row 2 7; pizza_row 3 7] rush_hour)) /\
  snd (enforceTableSizeLimits (E := stable_engine) failing_delete_env
         PizzaTable 2 3
         (tt, set_pizzas [pizza_row 1 7; pizza_row 2 7; pizza_row 3 7]
                rush_hour))
  = (tt, set_pizzas [pizza_row 1 7; pizza_row 2 7; pizza_row 3 7] rush_hour) /\
  snd (enforceTableSizeLimits (E := stable_engine) quiet_env PizzaTable 2 3
         (tt, set_pizzas [pizza_row 1 7; pizza_row 2 7; pizza_row 3 7]
                rush_hour))
  = (tt, set_pizzas [pizza_row 1 7; pizza_row 2 7; pizza_row 3 7] rush_hour).
Proof.
  assert (H : enforceTableSizeLimits (E := stable_engine) quiet_env PizzaTable
                2 3 (tt, rush_hour)
              = (Ok tt,
                 (tt, set_pizzas [pizza_row 1 7; pizza_row 2 7; pizza_row 3 7]
                        rush_hour))) by reflexivity.
  split; [exact H|]. split.
  - exact (proj2 (proj2 (enforce_twice_changes_nothing PizzaTable 2 3
                           same_instant))
             unit quiet_env failing_delete_env tt tt rush_hour _ H).
  - exact (proj2 (proj2 (enforce_twice_changes_nothing PizzaTable 2 3
                           same_instant))
             unit quiet_env quiet_env tt tt rush_hour _ H).
Defined.

(** ** Transactions *)

Lemma RunInTx_cases {G : Type} (env : Env) (fn : Tx G unit) (g : G) (db : DB) :
  let out := RunInTx env fn (g, db) in
  (fst out <> None /\ snd (snd out) = db) \/
  (fst out = None /\ fst (fn (g, db)) = Ok tt /\
   snd out = snd (fn (g, db))).
Proof.
  unfold RunInTx. destruct (storage_fault env BeginTx); simpl.
  - left. split; [discriminate | reflexivity].
  - destruct (fn (g, db)) as [[[]|e] [g' db']]; simpl.
    + destruct (storage_fault env CommitTx); simpl.
      * left. split; [discriminate | reflexivity].
      * right. auto.
    + left. split; [discriminate | reflexivity].
Qed.

(** A transaction that returns an error leaves the store as it was. *)
Lemma RunInTx_rollback {G : Type} (env : Env) (fn : Tx G unit) (g : G)
  (db : DB) (err : error) :
  fst (RunInTx env fn (g, db)) = Some err ->
  snd (snd (RunInTx env fn (g, db))) = db.
Proof.
  intros H. destruct (RunInTx_cases env fn g db) as [[_ Hdb]|[Hnone _]].
  - exact Hdb.
  - rewrite H in Hnone. discriminate.
Qed.

Lemma RunInTx_keeps {G : Type} (P : DB -> DB -> Prop) (env : Env)
  (fn : Tx G unit) (g : G) (db : DB) :
  P db db -> tx_keeps P fn -> P db (snd (snd (RunInTx env fn (g, db)))).
Proof.
  intros Hrefl Hfn.
  destruct (RunInTx_cases env fn g db) as [[_ Hdb]|(_ & _ & Hout)].
  - now rewrite Hdb.
  - rewrite Hout. apply Hfn.
Qed.

Lemma tx_bind_keeps {G A B : Type} (P : DB -> DB -> Prop)
  (m : Tx G A) (k : A -> Tx G B) :
  (forall a b c, P a b -> P b c -> P a c) ->
  tx_keeps P m -> (forall a, tx_keeps P (k a)) -> tx_keeps P (tx_bind m k).
Proof.
  intros Htrans Hm Hk g db. unfold tx_bind.
  specialize (Hm g db).
  destruct (m (g, db)) as [[a|e] [g' db']]; simpl in *.
  - eapply Htrans; [exact Hm | apply Hk].
  - exact Hm.
Qed.

Lemma fixed_kept_refl (c : Catalog) (db : DB) : fixed_kept c db db.
Proof. split; auto. Qed.

Lemma fixed_kept_trans (c : Catalog) (a b d : DB) :
  fixed_kept c a b -> fixed_kept c b d -> fixed_kept c a d.
Proof. intros [H1 H2] [H3 H4]. split; auto. Qed.

Lemma fixed_kept_same (c : Catalog) (db db' : DB) :
  incl (users db) (users db') -> incl (pizzas db) (pizzas db') ->
  fixed_kept c db db'.
Proof. intros Hu Hp. split; intros r Hr _; [now apply Hu | now apply Hp]. Qed.

Lemma insert_user_keeps (c : Catalog) (env : Env) :
  tx_keeps (fixed_kept c) (insert_user env).
Proof.
  intros user db. unfold insert_user.
  destruct (storage_fault env InsertUser); [apply fixed_kept_refl|].
  repeat (match goal with |- context [if ?b then _ else _] => destruct b end;
          [apply fixed_kept_refl|]).
  apply fixed_kept_same; simpl.
  - apply incl_appl, incl_refl.
  - apply incl_refl.
Qed.

Lemma insert_pizza_keeps (c : Catalog) (env : Env) :
  tx_keeps (fixed_kept c) (insert_pizza env).
Proof.
  intros pizza db. unfold insert_pizza.
  destruct (storage_fault env InsertPizza); [apply fixed_kept_refl|].
  match goal with |- context [if ?b then _ else _] => destruct b end;
    [apply fixed_kept_refl|].
  apply fixed_kept_same; simpl.
  - apply incl_refl.
  - apply incl_appl, incl_refl.
Qed.

Lemma insert_pizza_to_ingredients_keeps {G : Type} (c : Catalog) (env : Env)
  (n : nat) (r : PizzaToIngredients) :
  tx_keeps (fixed_kept c) (insert_pizza_to_ingredients (G := G) env n r).
Proof.
  intros g db. unfold insert_pizza_to_ingredients.
  destruct (storage_fault env (InsertPizzaToIngredients n));
    [apply fixed_kept_refl|].
  apply fixed_kept_same; apply incl_refl.
Qed.

Section Recorder.

Context {E : Engine}.

Lemma insert_ingredients_keeps (c : Catalog) (env : Env)
  (l : list Ingredient.t) :
  forall n, tx_keeps (fixed_kept c) (insert_ingredients env n l).
Proof.
  induction l as [|i rest IH]; intros n pizza db; simpl.
  - apply fixed_kept_refl.
  - apply (tx_bind_keeps (fixed_kept c)).
    + apply fixed_kept_trans.
    + apply insert_pizza_to_ingredients_keeps.
    + intros _. apply IH.
Qed.

Lemma delete_excess_fixed {R : Type} (T : Table R) (fixed maximum : Z)
  (l : list R) (r : R) :
  In r l -> row_id T r <= fixed -> In r (delete_excess T fixed maximum l).
Proof.
  intros Hin Hid. rewrite delete_excess_spared.
  apply filter_In. split; [exact Hin|].
  apply orb_true_iff. right. now apply Z.leb_le.
Qed.

Lemma enforce_users_keeps {G : Type} (c : Catalog) (env : Env) :
  tx_keeps (fixed_kept c)
    (enforceTableSizeLimits (G := G) env UserTable (fixedUsers c) (maxUsers c)).
Proof.
  intros g db. unfold enforceTableSizeLimits.
  destruct (maxUsers c <=? 0); [apply fixed_kept_refl|].
  destruct (storage_fault env DeleteExcess); [apply fixed_kept_refl|].
  split; simpl; intros r Hin Hid; [|exact Hin].
  now apply (delete_excess_fixed UserTable).
Qed.

Lemma enforce_pizzas_keeps {G : Type} (c : Catalog) (env : Env) :
  tx_keeps (fixed_kept c)
    (enforceTableSizeLimits (G := G) env PizzaTable (fixedPizzas c)
       (maxPizzas c)).
Proof.
  intros g db. unfold enforceTableSizeLimits.
  destruct (maxPizzas c <=? 0); [apply fixed_kept_refl|].
  destruct (storage_fault env DeleteExcess); [apply fixed_kept_refl|].
  split; simpl; intros r Hin Hid; [exact Hin|].
  now apply (delete_excess_fixed PizzaTable).
Qed.

Lemma RecordUser_keeps (c : Catalog) (env : Env) (user : User.t) (db : DB) :
  fixed_kept c db (snd (snd (RecordUser c env (user, db)))).
Proof.
  unfold RecordUser.
  destruct (HashPassword env (User.Password user)) as [h [err|]].
  - apply fixed_kept_refl.
  - cbv zeta. apply RunInTx_keeps; [apply fixed_kept_refl|].
    apply tx_bind_keeps.
    + apply fixed_kept_trans.
    + apply insert_user_keeps.
    + intros _. apply enforce_users_keeps.
Qed.

Lemma record_recommendation_tx_keeps (c : Catalog) (env : Env) :
  tx_keeps (fixed_kept c) (record_recommendation_tx c env).
Proof.
  unfold record_recommendation_tx.
  apply tx_bind_keeps; [apply fixed_kept_trans | apply insert_pizza_keeps|].
  intros _. apply tx_bind_keeps; [apply fixed_kept_trans | |].
  - intros pizza db. apply insert_ingredients_keeps.
  - intros _. apply enforce_pizzas_keeps.
Qed.

Lemma serve_keeps (c : Catalog) (db : DB) (req : request) :
  fixed_kept c db (serve c db req).
Proof.
  destruct req as [env user|env pizza]; unfold serve.
  - apply RecordUser_keeps.
  - unfold RecordRecommendation.
    destruct (InjectErrors env "record-recommendation");
      [apply fixed_kept_refl|].
    destruct (Pizza.Dough pizza); [|apply fixed_kept_refl].
    cbv beta iota zeta. apply RunInTx_keeps; [apply fixed_kept_refl|].
    apply record_recommendation_tx_keeps.
Qed.

Lemma serve_all_keeps (c : Catalog) (reqs : list request) :
  forall db, fixed_kept c db (serve_all c reqs db).
Proof.
  unfold serve_all.
  induction reqs as [|req rest IH]; intros db; simpl.
  - apply fixed_kept_refl.
  - eapply fixed_kept_trans; [apply serve_keeps | apply IH].
Qed.

End Recorder.

(** ** C2: the fixed prefix *)

(** C2: no call of the enforcer deletes a row whose identity is at most
    [fixed], however many rows the table holds and whether the call
    succeeds or fails, and after every sequence of calls of the
    transactional recorder every user with identity at most [fixedUsers]
    and every pizza with identity at most [fixedPizzas] that was in the
    store is still in it. *)
Theorem fixed_rows_are_never_deleted {E : Engine} (c : Catalog) :
  (forall (R : Type) (T : Table R) (fixed maximum : Z) (l : list R) (r : R),
     In r l -> row_id T r <= fixed ->
     In r (enforce_rows T fixed maximum l) /\
     ~ In r (enforce_deleted T fixed maximum l)) /\
  (forall (G R : Type) (env : Env) (T : Table R) (fixed maximum : Z)
          (g : G) (db : DB) (r : R),
     (forall l d, rows T (set_rows T l d) = l) ->
     In r (rows T db) -> row_id T r <= fixed ->
     In r (rows T (snd (snd (enforceTableSizeLimits env T fixed maximum
                               (g, db)))))) /\
  (forall (reqs : list request) (db : DB) (r : UserRow),
     In r (users db) -> ur_id r <= fixedUsers c ->
     In r (users (serve_all c reqs db))) /\
  (forall (reqs : list request) (db : DB) (r : PizzaRow),
     In r (pizzas db) -> pr_id r <= fixedPizzas c ->
     In r (pizzas (serve_all c reqs db))).
Proof.
  repeat split.
  - now apply enforce_rows_fixed.
  - intros Hdel. apply enforce_deleted_In in Hdel. lia.
  - intros G R env T fixed maximum g db r Hlens Hin Hid.
    destruct (enforceTableSizeLimits_rows env T fixed maximum g db Hlens)
      as [[_ Hrows]|(_ & e & _ & Hout)].
    + rewrite Hrows. now apply enforce_rows_fixed.
    + now rewrite Hout.
  - intros. now apply (serve_all_keeps c reqs db).
  - intros. now apply (serve_all_keeps c reqs db).
Qed.

Lemma fixed_rows_are_never_deleted_witness :
  In alice_row (users alice_db) /\ ur_id alice_row <= fixedUsers tiny_catalog /\
  In alice_row
     (users (serve_all (E := stable_engine) tiny_catalog
               [RegisterUser quiet_env bob;
                RecordPizza quiet_env margherita;
                RegisterUser quiet_env carol]
               alice_db)).
Proof.
  assert (Hin : In alice_row (users alice_db)) by (simpl; auto).
  assert (Hid : ur_id alice_row <= fixedUsers tiny_catalog) by (simpl; lia).
  split; [exact Hin|]. split; [exact Hid|].
  exact (proj1 (proj2 (proj2 (fixed_rows_are_never_deleted (E := stable_engine)
                                tiny_catalog))) _ alice_db alice_row Hin Hid).
Defined.

(** ** C3: validation and registration *)

Lemma Validate_rejects (u : User.t) :
  User.Validate u <> None <->
  (User.Username u = "" \/
   (User.MaxNameLength < String.length (User.Username u))%nat \/
   User.Username u = "default" \/
   User.Password u = "").
Proof.
  unfold User.Validate.
  destruct (String.eqb_spec (User.Username u) "") as [H1|H1].
  { split; [auto | discriminate]. }
  destruct (Nat.ltb_spec User.MaxNameLength (String.length (User.Username u)))
    as [H2|H2].
  { split; [auto | discriminate]. }
  destruct (String.eqb_spec (User.Username u) "default") as [H3|H3].
  { split; [auto | discriminate]. }
  destruct (String.eqb_spec (User.Password u) "") as [H4|H4].
  { split; [auto | discriminate]. }
  split; [congruence|].
  intros [H|[H|[H|H]]]; try contradiction. lia.
Qed.

(** The first rule that fails decides the error. *)
Lemma Validate_first_failure (u : User.t) :
  (User.Username u = "" ->
   User.Validate u = Some (Err "username field is empty")) /\
  (User.Username u <> "" ->
   (User.MaxNameLength < String.length (User.Username u))%nat ->
   User.Validate u = Some (Err "username field is too long")) /\
  (User.Username u = "default" ->
   User.Validate u = Some (Err "username field is invalid")) /\
  (User.Username u <> "" ->
   (String.length (User.Username u) <= User.MaxNameLength)%nat ->
   User.Username u <> "default" -> User.Password u = "" ->
   User.Validate u = Some (Err "password is empty")).
Proof.
  unfold User.Validate. repeat split.
  - intros ->. reflexivity.
  - intros H1 H2. apply String.eqb_neq in H1. rewrite H1.
    apply Nat.ltb_lt in H2. now rewrite H2.
  - intros ->. reflexivity.
  - intros H1 H2 H3 ->. apply String.eqb_neq in H1, H3. rewrite H1, H3.
    apply Nat.ltb_ge in H2. now rewrite H2.
Qed.

Section Registration.

Context {E : Engine}.

(** The row [RecordUser] inserts. *)
Lemma RecordUser_success (c : Catalog) (env : Env) (user : User.t) (db : DB) :
  fst (RecordUser c env (user, db)) = None ->
  users (snd (snd (RecordUser c env (user, db)))) =
  enforce_rows UserTable (fixedUsers c) (maxUsers c)
    (users db ++
     [{| ur_id := assign_id (users_seq db) (User.ID user);
         ur_created_at := now env;
         ur_username := User.Username user;
         ur_token := GenerateUserToken (Intn env);
         ur_password_hash := fst (HashPassword env (User.Password user)) |}]).
Proof.
  unfold RecordUser, RunInTx, tx_bind, insert_user, enforceTableSizeLimits,
    enforce_rows.
  destruct (HashPassword env (User.Password user)) as [h [err|]];
    [discriminate|].
  cbv zeta. cbn [User.ID User.Username User.Token User.PasswordHash
                 User.with_Token User.with_PasswordHash fst snd].
  destruct (storage_fault env BeginTx); [discriminate|].
  destruct (storage_fault env InsertUser); [discriminate|].
  repeat (match goal with
          | |- context [if id_in ?l ?i then _ else _] => destruct (id_in l i)
          | |- context [if existsb ?f ?l then _ else _] => destruct (existsb f l)
          end; [discriminate|]).
  destruct (maxUsers c <=? 0).
  - destruct (storage_fault env CommitTx); [discriminate|]. reflexivity.
  - destruct (storage_fault env DeleteExcess); [discriminate|].
    destruct (storage_fault env CommitTx); [discriminate|]. reflexivity.
Qed.

Lemma RecordUser_digest_failure (c : Catalog) (env : Env) (user : User.t)
  (db : DB) (err : error) :
  snd (HashPassword env (User.Password user)) = Some err ->
  RecordUser c env (user, db) = (Some err, (user, db)).
Proof.
  unfold RecordUser.
  destruct (HashPassword env (User.Password user)) as [h [e|]]; simpl;
    congruence.
Qed.

Lemma RecordUser_rollback (c : Catalog) (env : Env) (user : User.t) (db : DB)
  (err : error) :
  fst (RecordUser c env (user, db)) = Some err ->
  snd (snd (RecordUser c env (user, db))) = db.
Proof.
  unfold RecordUser.
  destruct (HashPassword env (User.Password user)) as [h [e|]];
    [reflexivity|].
  cbv zeta. apply RunInTx_rollback.
Qed.

End Registration.

(** C3, as stated, fails: [RecordUser] never calls [Validate].  The
    candidate with the reserved name "default" fails validation, yet
    [RecordUser] returns no error and its row is in the table. *)
Lemma RecordUser_registers_reserved_name :
  User.Validate reserved = Some (Err "username field is invalid") /\
  fst (RecordUser (E := stable_engine) default_catalog quiet_env
         (reserved, empty_db)) = None /\
  map ur_username
      (users (snd (snd (RecordUser (E := stable_engine) default_catalog
                          quiet_env (reserved, empty_db)))))
  = ["default"].
Proof.
  repeat split; vm_compute; reflexivity.
Qed.

(** C3 (amended): [Validate] rejects exactly the candidates with an empty
    username, a username longer than 32, the reserved username "default" or
    an empty password, the first failing rule deciding the error.
    [RecordUser] does not validate: it computes the digest, generates the
    token, inserts the row and enforces the limits of the users table.
    When the digest fails it returns that error with the candidate and the
    store untouched, and whenever it returns an error no row is inserted. *)
Theorem validation_and_registration
  {E : Engine} (c : Catalog) (env : Env) (user : User.t) (db : DB) :
  (User.Validate user <> None <->
   (User.Username user = "" \/
    (32 < String.length (User.Username user))%nat \/
    User.Username user = "default" \/
    User.Password user = "")) /\
  ((User.Username user = "" ->
    User.Validate user = Some (Err "username field is empty")) /\
   (User.Username user <> "" ->
    (32 < String.length (User.Username user))%nat ->
    User.Validate user = Some (Err "username field is too long")) /\
   (User.Username user = "default" ->
    User.Validate user = Some (Err "username field is invalid")) /\
   (User.Username user <> "" ->
    (String.length (User.Username user) <= 32)%nat ->
    User.Username user <> "default" -> User.Password user = "" ->
    User.Validate user = Some (Err "password is empty"))) /\
  (forall err, snd (HashPassword env (User.Password user)) = Some err ->
               RecordUser c env (user, db) = (Some err, (user, db))) /\
  (forall err, fst (RecordUser c env (user, db)) = Some err ->
               snd (snd (RecordUser c env (user, db))) = db) /\
  (fst (RecordUser c env (user, db)) = None ->
   users (snd (snd (RecordUser c env (user, db)))) =
   enforce_rows UserTable (fixedUsers c) (maxUsers c)
     (users db ++
      [{| ur_id := assign_id (users_seq db) (User.ID user);
          ur_created_at := now env;
          ur_username := User.Username user;
          ur_token := GenerateUserToken (Intn env);
          ur_password_hash := fst (HashPassword env (User.Password user)) |}])).
Proof.
  split; [apply Validate_rejects|].
  split; [apply Validate_first_failure|].
  split; [intros err; apply RecordUser_digest_failure|].
  split; [intros err; apply RecordUser_rollback|].
  apply RecordUser_success.
Qed.

Lemma validation_and_registration_witness :
  fst (RecordUser (E := stable_engine) tiny_catalog failing_delete_env
         (carol, alice_db)) = Some (Err "database is locked") /\
  snd (snd (RecordUser (E := stable_engine) tiny_catalog failing_delete_env
              (carol, alice_db))) = alice_db.
Proof.
  assert (H : fst (RecordUser (E := stable_engine) tiny_catalog
                     failing_delete_env (carol, alice_db))
              = Some (Err "database is locked")) by reflexivity.
  split; [exact H|].
  exact (proj1 (proj2 (proj2 (proj2
           (validation_and_registration (E := stable_engine) tiny_catalog
              failing_delete_env carol alice_db)))) _ H).
Defined.

(** ** The Go values the recorder is given *)

Section GoValues.

Context {E : Engine}.

Lemma enforce_leaves_argument {G R : Type} (env : Env) (T : Table R)
  (fixed maximum : Z) (g : G) (db : DB) :
  fst (snd (enforceTableSizeLimits env T fixed maximum (g, db))) = g.
Proof.
  unfold enforceTableSizeLimits.
  destruct (maximum <=? 0); [reflexivity|].
  destruct (storage_fault env DeleteExcess); reflexivity.
Qed.

Lemma insert_user_sets_ID (env : Env) (user : User.t) (db : DB) :
  User.with_ID 0 (fst (snd (insert_user env (user, db)))) = User.with_ID 0 user.
Proof.
  unfold insert_user.
  destruct (storage_fault env InsertUser); [reflexivity|].
  repeat (match goal with
          | |- context [if ?b then _ else _] => destruct b
          end; [reflexivity|]).
  reflexivity.
Qed.

Lemma insert_pizza_sets_ID (env : Env) (pizza : Pizza.t) (db : DB) :
  Pizza.with_ID 0 (fst (snd (insert_pizza env (pizza, db))))
  = Pizza.with_ID 0 pizza.
Proof.
  unfold insert_pizza.
  destruct (storage_fault env InsertPizza); [reflexivity|].
  match goal with |- context [if ?b then _ else _] => destruct b end;
    reflexivity.
Qed.

Lemma insert_ingredients_leaves_argument (env : Env) (l : list Ingredient.t) :
  forall (n : nat) (pizza : Pizza.t) (db : DB),
    fst (snd (insert_ingredients env n l (pizza, db))) = pizza.
Proof.
  induction l as [|i rest IH]; intros n pizza db; simpl; [reflexivity|].
  unfold tx_bind, insert_pizza_to_ingredients.
  destruct (storage_fault env (InsertPizzaToIngredients n)); [reflexivity|].
  apply IH.
Qed.

(** Whatever happens in the transaction, [RecordUser] has set the digest
    and the token of its argument and touches only its identity after. *)
Lemma RecordUser_argument (c : Catalog) (env : Env) (user : User.t) (db : DB) :
  snd (HashPassword env (User.Password user)) = None ->
  User.with_ID 0 (fst (snd (RecordUser c env (user, db)))) =
  User.with_ID 0
    (User.with_Token (GenerateUserToken (Intn env))
       (User.with_PasswordHash (fst (HashPassword env (User.Password user)))
          user)).
Proof.
  unfold RecordUser.
  destruct (HashPassword env (User.Password user)) as [h [e|]];
    [discriminate|].
  intros _. cbv zeta. cbn [fst].
  set (u := User.with_Token _ _).
  unfold RunInTx. destruct (storage_fault env BeginTx); [reflexivity|].
  unfold tx_bind.
  pose proof (insert_user_sets_ID env u db) as Hins.
  destruct (insert_user env (u, db)) as [[[]|e] [u1 db1]]; cbn [fst snd] in *.
  - pose proof (enforce_leaves_argument env UserTable (fixedUsers c)
                  (maxUsers c) u1 db1) as Henf.
    destruct (enforceTableSizeLimits env UserTable (fixedUsers c) (maxUsers c)
                (u1, db1)) as [[[]|e] [u2 db2]]; cbn [fst snd] in *; subst u2.
    + destruct (storage_fault env CommitTx); exact Hins.
    + exact Hins.
  - exact Hins.
Qed.

Lemma record_recommendation_tx_argument (c : Catalog) (env : Env)
  (pizza : Pizza.t) (db : DB) :
  Pizza.with_ID 0 (fst (snd (record_recommendation_tx c env (pizza, db))))
  = Pizza.with_ID 0 pizza.
Proof.
  unfold record_recommendation_tx, tx_bind.
  pose proof (insert_pizza_sets_ID env pizza db) as Hins.
  destruct (insert_pizza env (pizza, db)) as [[[]|e] [p1 db1]];
    cbn [fst snd] in *; [|exact Hins].
  pose proof (insert_ingredients_leaves_argument env (Pizza.Ingredients p1)
                0%nat p1 db1) as Hing.
  destruct (insert_ingredients env 0 (Pizza.Ingredients p1) (p1, db1))
    as [[[]|e] [p2 db2]]; cbn [fst snd] in *; subst p2; [|exact Hins].
  now rewrite enforce_leaves_argument.
Qed.

Lemma RunInTx_argument {G : Type} (env : Env) (fn : Tx G unit) (g : G)
  (db : DB) :
  fst (snd (RunInTx env fn (g, db))) = g \/
  fst (snd (RunInTx env fn (g, db))) = fst (snd (fn (g, db))).
Proof.
  unfold RunInTx. destruct (storage_fault env BeginTx); [now left|].
  right. destruct (fn (g, db)) as [[[]|e] [g' db']]; cbn [fst snd].
  - destruct (storage_fault env CommitTx); reflexivity.
  - reflexivity.
Qed.

End GoValues.

(** ** C8: the injected fault *)

(** C8: when the check point "record-recommendation" is armed,
    [RecordRecommendation] returns exactly the injected error with the
    store as it was (no pizza row, no join row) and its argument untouched:
    the check point is consulted before the dough is read and before any
    statement is sent. *)
Theorem RecordRecommendation_injected_error
  {E : Engine} (c : Catalog) (env : Env) (pizza : Pizza.t) (db : DB)
  (err : error) :
  InjectErrors env "record-recommendation" = Some err ->
  RecordRecommendation c env (pizza, db) = Returns (Some err, (pizza, db)).
Proof.
  intros H. unfold RecordRecommendation. now rewrite H.
Qed.

Lemma RecordRecommendation_injected_error_witness :
  InjectErrors armed_env "record-recommendation" = Some injected /\
  RecordRecommendation (E := stable_engine) default_catalog armed_env
    (margherita, empty_db)
  = Returns (Some injected, (margherita, empty_db)).
Proof.
  assert (H : InjectErrors armed_env "record-recommendation" = Some injected)
    by reflexivity.
  split; [exact H|].
  exact (RecordRecommendation_injected_error (E := stable_engine)
           default_catalog armed_env margherita empty_db injected H).
Defined.

(** ** C9: the argument of RecordUser *)

(** C9: [RecordUser] sets [PasswordHash] and [Token] of its argument before
    it opens the transaction; when the transaction then fails (at its
    beginning, at the insert, at the enforcement or at the commit) the
    store is as it was, but the argument holds the new digest and the new
    token, not its prior values. *)
Theorem RecordUser_mutates_argument
  {E : Engine} (c : Catalog) (env : Env) (user : User.t) (db : DB)
  (digest : string) (err : error) :
  HashPassword env (User.Password user) = (digest, None) ->
  fst (RecordUser c env (user, db)) = Some err ->
  let user' := fst (snd (RecordUser c env (user, db))) in
  User.PasswordHash user' = digest /\
  User.Token user' = GenerateUserToken (Intn env) /\
  User.Username user' = User.Username user /\
  User.Password user' = User.Password user /\
  snd (snd (RecordUser c env (user, db))) = db.
Proof.
  intros Hhash Herr user'.
  pose proof (RecordUser_argument c env user db) as Harg.
  rewrite Hhash in Harg. specialize (Harg eq_refl). fold user' in Harg.
  cbn [fst] in Harg.
  assert (Hfields :
    User.PasswordHash (User.with_ID 0 user') = digest /\
    User.Token (User.with_ID 0 user') = GenerateUserToken (Intn env) /\
    User.Username (User.with_ID 0 user') = User.Username user /\
    User.Password (User.with_ID 0 user') = User.Password user)
    by (rewrite Harg; repeat split).
  destruct Hfields as (H1 & H2 & H3 & H4).
  repeat split; try assumption.
  now apply RecordUser_rollback with err.
Qed.

Lemma RecordUser_mutates_argument_witness :
  HashPassword failing_delete_env (User.Password carol) = ("hash:secret", None) /\
  fst (RecordUser (E := stable_engine) tiny_catalog failing_delete_env
         (carol, alice_db)) = Some (Err "database is locked") /\
  User.Token carol = "old token" /\
  User.Token (fst (snd (RecordUser (E := stable_engine) tiny_catalog
                          failing_delete_env (carol, alice_db))))
  = GenerateUserToken (Intn failing_delete_env).
Proof.
  assert (Hhash : HashPassword failing_delete_env (User.Password carol)
                  = ("hash:secret", None)) by reflexivity.
  assert (Herr : fst (RecordUser (E := stable_engine) tiny_catalog
                        failing_delete_env (carol, alice_db))
                 = Some (Err "database is locked")) by reflexivity.
  split; [exact Hhash|]. split; [exact Herr|]. split; [reflexivity|].
  exact (proj1 (proj2
           (RecordUser_mutates_argument (E := stable_engine) tiny_catalog
              failing_delete_env carol alice_db _ _ Hhash Herr))).
Defined.

(** ** C10: the dough of a recommendation *)

(** Without a dough, and with the check point disarmed, the call panics. *)
Lemma RecordRecommendation_nil_dough
  {E : Engine} (c : Catalog) (env : Env) (pizza : Pizza.t) (db : DB) :
  InjectErrors env "record-recommendation" = None ->
  Pizza.Dough pizza = None ->
  RecordRecommendation c env (pizza, db)
  = Panics "invalid memory address or nil pointer dereference".
Proof.
  intros H1 H2. unfold RecordRecommendation. now rewrite H1, H2.
Qed.

(** C10: when the dough of the pizza is not nil, [RecordRecommendation]
    does not panic: it returns, and unless the check point is armed the
    argument then carries the identity of its dough in [DoughID]. *)
Theorem RecordRecommendation_dough_present
  {E : Engine} (c : Catalog) (env : Env) (pizza : Pizza.t) (db : DB)
  (dough : Dough.t) :
  Pizza.Dough pizza = Some dough ->
  exists out,
    RecordRecommendation c env (pizza, db) = Returns out /\
    (InjectErrors env "record-recommendation" = None ->
     Pizza.DoughID (fst (snd out)) = Dough.ID dough).
Proof.
  intros Hd. unfold RecordRecommendation. rewrite Hd.
  destruct (InjectErrors env "record-recommendation") as [e|].
  - eexists. split; [reflexivity | discriminate].
  - eexists. split; [reflexivity|]. intros _. cbv zeta.
    set (p := Pizza.with_DoughID (Dough.ID dough) pizza).
    assert (Hp : forall q, Pizza.with_ID 0 q = Pizza.with_ID 0 p ->
                           Pizza.DoughID q = Dough.ID dough).
    { intros q Hq.
      change (Pizza.DoughID (Pizza.with_ID 0 q) = Dough.ID dough).
      now rewrite Hq. }
    apply Hp.
    destruct (RunInTx_argument env (record_recommendation_tx c env) p db)
      as [H|H]; rewrite H; [reflexivity|].
    apply record_recommendation_tx_argument.
Qed.

Lemma RecordRecommendation_dough_present_witness :
  Pizza.Dough margherita = Some (Dough.mk 1) /\
  exists out,
    RecordRecommendation (E := stable_engine) default_catalog quiet_env
      (margherita, empty_db) = Returns out /\
    (InjectErrors quiet_env "record-recommendation" = None ->
     Pizza.DoughID (fst (snd out)) = 1).
Proof.
  assert (H : Pizza.Dough margherita = Some (Dough.mk 1)) by reflexivity.
  split; [exact H|].
  exact (RecordRecommendation_dough_present (E := stable_engine)
           default_catalog quiet_env margherita empty_db (Dough.mk 1) H).
Defined.

(** ** C4: storage errors of the queries *)

(** [GetRecommendation] hands a storage error of its lookup to the caller. *)
Lemma GetRecommendation_propagates (env : Env) (db : DB) (id : Z) (e : error) :
  storage_fault env SelectPizza = Some e -> e <> ErrNoRows ->
  snd (GetRecommendation env db id) = Some e.
Proof.
  intros Hf Hne. unfold GetRecommendation, scan_pizza_by_id. rewrite Hf.
  simpl. destruct e as [|msg]; [contradiction | reflexivity].
Qed.

(** [LoginUser] has no path on which it returns an error. *)
Lemma LoginUser_never_fails (env : Env) (db : DB) (username passwordText : string) :
  snd (LoginUser env db username passwordText) = None.
Proof.
  unfold LoginUser.
  destruct (scan_user_by_username env db username) as [user err].
  destruct (err_is err ErrNoRows); [reflexivity|].
  destruct (CheckPassword env passwordText (User.PasswordHash user));
    reflexivity.
Qed.

(** Its lookup failing with a storage error, [LoginUser] goes on to check
    the password against the digest of the zero user. *)
Lemma LoginUser_storage_error (env : Env) (db : DB)
  (username passwordText : string) (e : error) :
  storage_fault env SelectUser = Some e -> e <> ErrNoRows ->
  LoginUser env db username passwordText =
  if CheckPassword env passwordText "" then (Some User.zero, None)
  else (None, None).
Proof.
  intros Hf Hne. unfold LoginUser, scan_user_by_username. rewrite Hf.
  destruct e as [|msg]; [contradiction|]. reflexivity.
Qed.

(** C4 at the failing input: the store unreachable, the lookup of
    [LoginUser] fails with "connection refused", and [LoginUser] returns
    neither a user nor an error, where [GetRecommendation] returns the
    error of its lookup. *)
Theorem LoginUser_swallows_storage_error :
  scan_user_by_username offline_env alice_db "alice"
  = (User.zero, Some connection_refused) /\
  LoginUser offline_env alice_db "alice" "wonderland" = (None, None) /\
  GetRecommendation offline_env alice_db 1
  = (Some pizza_zero, Some connection_refused).
Proof.
  repeat split.
Qed.

(** ** C7: login *)

(** C7, as stated, fails: with the store unreachable, alice is in the users
    table and her password verifies against the stored digest, yet
    [LoginUser] does not return her. *)
Lemma LoginUser_store_unreachable :
  ~ (forall user,
       fst (LoginUser offline_env alice_db "alice" "wonderland") = Some user <->
       exists r,
         find (fun r => String.eqb (ur_username r) "alice") (users alice_db)
         = Some r /\
         user = User.mk (ur_id r) (ur_username r) (ur_token r) ""
                        (ur_password_hash r) /\
         CheckPassword offline_env "wonderland" (ur_password_hash r) = true).
Proof.
  intros H.
  destruct (H (User.mk 1 "alice" "tokenOfAlice0000" "" "hash:wonderland"))
    as [_ Hback].
  assert (Hlogin : fst (LoginUser offline_env alice_db "alice" "wonderland")
                   = Some (User.mk 1 "alice" "tokenOfAlice0000" ""
                                   "hash:wonderland")).
  { apply Hback. exists alice_row. repeat split. }
  vm_compute in Hlogin. discriminate.
Qed.

(** C7 (amended): whenever the store answers the user lookup, with a row or
    with no rows, [LoginUser] returns the stored user -- the identity, the
    username, the token and the digest of the row of that name, with no
    password -- exactly when a user of that name exists and the password
    verifies against the stored digest; when the name is unknown, and when
    the verification fails, it returns no user and no error, the same result
    in both cases. *)
Theorem LoginUser_returns_user_iff_verified
  (env : Env) (db : DB) (username passwordText : string) :
  storage_fault env SelectUser = None ->
  let stored := find (fun r => String.eqb (ur_username r) username) (users db) in
  (forall user,
     fst (LoginUser env db username passwordText) = Some user <->
     exists r, stored = Some r /\
               user = User.mk (ur_id r) (ur_username r) (ur_token r) ""
                              (ur_password_hash r) /\
               CheckPassword env passwordText (ur_password_hash r) = true) /\
  (forall r, stored = Some r -> In r (users db) /\ ur_username r = username) /\
  (stored = None <-> ~ In username (map ur_username (users db))) /\
  snd (LoginUser env db username passwordText) = None /\
  (stored = None -> LoginUser env db username passwordText = (None, None)) /\
  (forall r, stored = Some r ->
             CheckPassword env passwordText (ur_password_hash r) = false ->
             LoginUser env db username passwordText = (None, None)).
Proof.
  intros Hf stored.
  assert (Hrow : forall r, stored = Some r ->
                           In r (users db) /\ ur_username r = username).
  { intros r Hr. apply find_some in Hr. destruct Hr as [Hin Hname].
    apply String.eqb_eq in Hname. auto. }
  assert (Hnone : stored = None <-> ~ In username (map ur_username (users db))).
  { split.
    - intros Hn Hin. apply in_map_iff in Hin. destruct Hin as (r & Hr & Hin).
      pose proof (find_none _ _ Hn r Hin) as Hne. cbv beta in Hne.
      rewrite Hr, String.eqb_refl in Hne. discriminate.
    - intros Hnot. destruct stored as [r|] eqn:Hs; [|reflexivity].
      exfalso. apply Hnot. destruct (Hrow r eq_refl) as [Hin <-].
      now apply in_map. }
  split; [|split; [exact Hrow|split; [exact Hnone|]]].
  - intros user. unfold LoginUser, scan_user_by_username.
    rewrite Hf. fold stored.
    destruct stored as [r|]; cbn [err_is user_of_row User.PasswordHash].
    + destruct (CheckPassword env passwordText (ur_password_hash r)) eqn:Hc;
        cbn [fst]; split.
      * intros H. exists r. inversion H. repeat split; auto.
      * intros (r' & Hr & -> & _). inversion Hr. reflexivity.
      * discriminate.
      * intros (r' & Hr & _ & Hc'). inversion Hr; subst. congruence.
    + cbn [error_eqb fst]. split; [discriminate|].
      intros (r & Hr & _). discriminate.
  - unfold LoginUser, scan_user_by_username. rewrite Hf. fold stored.
    destruct stored as [r|]; cbn [err_is user_of_row User.PasswordHash error_eqb].
    + destruct (CheckPassword env passwordText (ur_password_hash r)) eqn:Hc.
      * split; [reflexivity|]. split; [discriminate|].
        intros r' Hr Hc'. inversion Hr; subst. congruence.
      * split; [reflexivity|]. split; [discriminate|]. reflexivity.
    + split; [reflexivity|]. split; [reflexivity|].
      intros r Hr. discriminate.
Qed.

Lemma LoginUser_returns_user_iff_verified_witness :
  storage_fault quiet_env SelectUser = None /\
  fst (LoginUser quiet_env alice_db "alice" "wonderland")
  = Some (User.mk 1 "alice" "tokenOfAlice0000" "" "hash:wonderland") /\
  LoginUser quiet_env alice_db "alice" "looking glass" = (None, None) /\
  LoginUser quiet_env alice_db "mallory" "wonderland" = (None, None).
Proof.
  assert (Hf : storage_fault quiet_env SelectUser = None) by reflexivity.
  split; [exact Hf|]. split; [|split].
  - apply (proj1 (LoginUser_returns_user_iff_verified quiet_env alice_db
                    "alice" "wonderland" Hf)).
    exists alice_row. repeat split.
  - exact (proj2 (proj2 (proj2 (proj2 (proj2
             (LoginUser_returns_user_iff_verified quiet_env alice_db "alice"
                "looking glass" Hf))))) alice_row eq_refl eq_refl).
  - exact (proj1 (proj2 (proj2 (proj2 (proj2
             (LoginUser_returns_user_iff_verified quiet_env alice_db "mallory"
                "wonderland" Hf))))) eq_refl).
Defined.

(** ** The store the recorder maintains *)

Lemma NoDup_map_snoc {A : Type} (f : A -> Z) (l : list A) (x : A) :
  NoDup (map f l) -> id_in (map f l) (f x) = false ->
  NoDup (map f (l ++ [x])).
Proof.
  intros Hnd Hx. rewrite map_app. simpl.
  eapply Permutation_NoDup; [apply Permutation_cons_append|].
  constructor; [|exact Hnd].
  rewrite <- id_in_In. now rewrite Hx.
Qed.

Section Keys.

Context {E : Engine}.

Lemma insert_user_keys (env : Env) : tx_keeps keys_kept (insert_user env).
Proof.
  intros user db. unfold insert_user, keys_kept.
  destruct (storage_fault env InsertUser); [auto|].
  destruct (id_in (map ur_id (users db))
              (assign_id (users_seq db) (User.ID user))) eqn:Hid; [auto|].
  repeat (match goal with |- context [if ?b then _ else _] => destruct b end;
          [auto|]).
  intros [Hu Hp]. split; simpl; [|exact Hp].
  now apply NoDup_map_snoc.
Qed.

Lemma insert_pizza_keys (env : Env) : tx_keeps keys_kept (insert_pizza env).
Proof.
  intros pizza db. unfold insert_pizza, keys_kept.
  destruct (storage_fault env InsertPizza); [auto|].
  destruct (id_in (map pr_id (pizzas db))
              (assign_id (pizzas_seq db) (Pizza.ID pizza))) eqn:Hid; [auto|].
  intros [Hu Hp]. split; simpl; [exact Hu|].
  now apply NoDup_map_snoc.
Qed.

Lemma insert_ingredients_keys (env : Env) (l : list Ingredient.t) :
  forall n, tx_keeps keys_kept (insert_ingredients env n l).
Proof.
  induction l as [|i rest IH]; intros n pizza db; simpl.
  - unfold keys_kept. auto.
  - apply (tx_bind_keeps keys_kept).
    + unfold keys_kept. auto.
    + intros g d. unfold insert_pizza_to_ingredients, keys_kept.
      destruct (storage_fault env (InsertPizzaToIngredients n)); auto.
    + intros _. apply IH.
Qed.

Lemma enforce_users_keys {G : Type} (env : Env) (fixed maximum : Z) :
  tx_keeps keys_kept
    (enforceTableSizeLimits (G := G) env UserTable fixed maximum).
Proof.
  intros g db. unfold enforceTableSizeLimits, keys_kept.
  destruct (maximum <=? 0); [auto|].
  destruct (storage_fault env DeleteExcess); [auto|].
  intros [Hu Hp]. split; simpl; [|exact Hp].
  unfold delete_excess. now apply NoDup_map_filter.
Qed.

Lemma enforce_pizzas_keys {G : Type} (env : Env) (fixed maximum : Z) :
  tx_keeps keys_kept
    (enforceTableSizeLimits (G := G) env PizzaTable fixed maximum).
Proof.
  intros g db. unfold enforceTableSizeLimits, keys_kept.
  destruct (maximum <=? 0); [auto|].
  destruct (storage_fault env DeleteExcess); [auto|].
  intros [Hu Hp]. split; simpl; [exact Hu|].
  unfold delete_excess. now apply NoDup_map_filter.
Qed.

Lemma serve_keys (c : Catalog) (db : DB) (req : request) :
  keys_ok db -> keys_ok (serve c db req).
Proof.
  assert (Htrans : forall a b d, keys_kept a b -> keys_kept b d -> keys_kept a d)
    by (unfold keys_kept; auto).
  assert (Hrefl : forall d, keys_kept d d) by (unfold keys_kept; auto).
  destruct req as [env user|env pizza]; unfold serve.
  - unfold RecordUser.
    destruct (HashPassword env (User.Password user)) as [h [err|]]; [auto|].
    cbv zeta. apply (RunInTx_keeps keys_kept); [apply Hrefl|].
    apply tx_bind_keeps; [exact Htrans | apply insert_user_keys|].
    intros _. apply enforce_users_keys.
  - unfold RecordRecommendation.
    destruct (InjectErrors env "record-recommendation"); [auto|].
    destruct (Pizza.Dough pizza); [|auto].
    cbv beta iota zeta. apply (RunInTx_keeps keys_kept); [apply Hrefl|].
    unfold record_recommendation_tx.
    apply tx_bind_keeps; [exact Htrans | apply insert_pizza_keys|].
    intros _. apply tx_bind_keeps; [exact Htrans | |].
    + intros p d. apply insert_ingredients_keys.
    + intros _. apply enforce_pizzas_keys.
Qed.

(** Identities stay keys of the users and pizzas tables whatever the
    recorder is asked. *)
Lemma serve_all_keys (c : Catalog) (reqs : list request) :
  forall db, keys_ok db -> keys_ok (serve_all c reqs db).
Proof.
  unfold serve_all.
  induction reqs as [|req rest IH]; intros db H; simpl; [exact H|].
  apply IH. now apply serve_keys.
Qed.

End Keys.

(** ** Tokens *)

Lemma string_of_list_ascii_length (l : list ascii) :
  String.length (string_of_list_ascii l) = List.length l.
Proof.
  induction l as [|a t IH]; simpl; [reflexivity | now rewrite IH].
Qed.

(** A token has [UserTokenLength] characters. *)
Lemma GenerateUserToken_length (Intn : nat -> nat -> nat) :
  String.length (GenerateUserToken Intn) = UserTokenLength.
Proof.
  unfold GenerateUserToken.
  now rewrite string_of_list_ascii_length, length_map, length_seq.
Qed.

(** * Further properties *)

(** ** The enforcer and the size of a table *)

Lemma filter_length_le {A : Type} (p q : A -> bool) (l : list A) :
  (forall x, In x l -> p x = true -> q x = true) ->
  (List.length (filter p l) <= List.length (filter q l))%nat.
Proof.
  induction l as [|x t IH]; simpl; intros H; [lia|].
  assert (IH' : (List.length (filter p t) <= List.length (filter q t))%nat)
    by (apply IH; intros y Hy; apply H; now right).
  destruct (p x) eqn:Hp.
  - rewrite (H x (or_introl eq_refl) Hp). simpl. lia.
  - destruct (q x); simpl; lia.
Qed.

Lemma filter_filter_andb {A : Type} (p q : A -> bool) (l : list A) :
  filter p (filter q l) = filter (fun x => q x && p x) l.
Proof.
  induction l as [|x t IH]; simpl; [reflexivity|].
  destruct (q x); simpl; [destruct (p x)|]; now rewrite IH.
Qed.

(** The rows beyond the fixed prefix that a DELETE of the enforcer leaves
    are at most [maximum]. *)
Lemma delete_excess_unprotected {E : Engine} {L : EngineLaws E} {R : Type}
  (T : Table R) (fixed maximum : Z) (l : list R) :
  NoDup (map (row_id T) l) -> 0 <= maximum ->
  Z.of_nat (List.length
              (unprotected T fixed (delete_excess T fixed maximum l)))
  <= maximum.
Proof.
  intros Hnd Hmax. unfold unprotected.
  rewrite delete_excess_spared, filter_filter_andb.
  set (ids := newest_ids T maximum l).
  assert (Hle : Nat.le
            (List.length
               (filter (fun x => (id_in ids (row_id T x)
                                  || (row_id T x <=? fixed))
                                 && (fixed <? row_id T x)) l))
            (List.length (filter (fun x => id_in ids (row_id T x)) l))).
  { apply filter_length_le. intros x _ Hx.
    apply andb_true_iff in Hx. destruct Hx as [Hk Hu].
    apply orb_true_iff in Hk. destruct Hk as [Hk|Hk]; [exact Hk|].
    apply Z.leb_le in Hk. apply Z.ltb_lt in Hu. lia. }
  assert (Hids : List.length (filter (fun x => id_in ids (row_id T x)) l)
                 = List.length ids).
  { rewrite <- (length_map (row_id T)).
    rewrite (map_filter_comp (row_id T) (id_in ids)).
    apply filter_id_in_length; [exact Hnd | |].
    - now apply newest_ids_NoDup.
    - now apply newest_ids_incl. }
  assert (Hn : (List.length ids <= Z.to_nat maximum)%nat)
    by (unfold ids, newest_ids; apply firstn_le_length).
  lia.
Qed.

(** A table that holds no more than [maximum] rows is listed whole by the
    subquery. *)
Lemma newest_ids_all {E : Engine} {L : EngineLaws E} {R : Type}
  (T : Table R) (maximum : Z) (l : list R) (r : R) :
  Z.of_nat (List.length l) <= maximum -> In r l ->
  In (row_id T r) (newest_ids T maximum l).
Proof.
  intros Hlen Hin. unfold newest_ids.
  pose proof (order_by_desc_perm R (row_created_at T) l) as Hp.
  rewrite firstn_all2.
  - apply in_map. eapply Permutation_in; [exact Hp | exact Hin].
  - rewrite length_map, <- (Permutation_length Hp). lia.
Qed.

(** X1.  The enforcer caps what lies beyond the fixed prefix: with
    identities a key and [maximum > 0], at most [maximum] rows with identity
    greater than [fixed] remain, so the table is left with at most [maximum]
    rows more than it has protected ones. *)
Theorem enforce_rows_caps_unprotected
  {E : Engine} (L : EngineLaws E) {R : Type} (T : Table R)
  (fixed maximum : Z) (l : list R) :
  NoDup (map (row_id T) l) -> 0 < maximum ->
  Z.of_nat (List.length
              (unprotected T fixed (enforce_rows T fixed maximum l)))
  <= maximum /\
  Z.of_nat (List.length (enforce_rows T fixed maximum l))
  <= maximum
     + Z.of_nat (List.length (filter (fun r => row_id T r <=? fixed) l)).
Proof.
  intros Hnd Hpos.
  assert (Hcap : Z.of_nat (List.length
                   (unprotected T fixed (enforce_rows T fixed maximum l)))
                 <= maximum).
  { unfold enforce_rows. rewrite (proj2 (Z.leb_gt maximum 0) Hpos).
    apply delete_excess_unprotected; [exact Hnd | lia]. }
  split; [exact Hcap|].
  set (left := enforce_rows T fixed maximum l) in *.
  pose proof (filter_split_perm (fun r => fixed <? row_id T r) left) as Hsplit.
  apply Permutation_length in Hsplit. rewrite length_app in Hsplit.
  assert (Hprot : Nat.le
            (List.length (filter (fun x => negb (fixed <? row_id T x)) left))
            (List.length (filter (fun r => row_id T r <=? fixed) l))).
  { unfold left, enforce_rows. rewrite (proj2 (Z.leb_gt maximum 0) Hpos).
    unfold delete_excess. rewrite filter_filter_andb.
    apply filter_length_le. intros x _ Hx.
    apply andb_true_iff in Hx. destruct Hx as [_ Hx].
    apply negb_true_iff, Z.ltb_ge in Hx. now apply Z.leb_le. }
  unfold unprotected in Hcap. lia.
Qed.

Lemma enforce_rows_caps_unprotected_witness :
  NoDup (map pr_id same_instant) /\ 0 < 3 /\
  Z.of_nat (List.length
              (unprotected PizzaTable 2
                 (enforce_rows (E := stable_engine) PizzaTable 2 3 same_instant)))
  <= 3.
Proof.
  assert (Hnd : NoDup (map (row_id PizzaTable) same_instant))
    by (apply distinct_NoDup; reflexivity).
  assert (Hpos : 0 < 3) by lia.
  split; [exact Hnd|]. split; [exact Hpos|].
  exact (proj1 (enforce_rows_caps_unprotected stable_engine_laws PizzaTable 2 3
                  same_instant Hnd Hpos)).
Defined.

(** X2.  The enforcer removes no row from a table that holds no more than
    [maximum] rows, whatever their identities and timestamps. *)
Theorem enforce_rows_below_limit
  {E : Engine} (L : EngineLaws E) {R : Type} (T : Table R)
  (fixed maximum : Z) (l : list R) :
  Z.of_nat (List.length l) <= maximum ->
  enforce_rows T fixed maximum l = l /\
  enforce_deleted T fixed maximum l = [].
Proof.
  intros Hlen.
  assert (Hsame : enforce_rows T fixed maximum l = l).
  { unfold enforce_rows. destruct (maximum <=? 0); [reflexivity|].
    rewrite delete_excess_spared. apply filter_all. intros r Hr.
    apply orb_true_iff. left. apply id_in_In.
    now apply newest_ids_all. }
  split; [exact Hsame|].
  pose proof (enforce_rows_partition T fixed maximum l) as Hp.
  rewrite Hsame in Hp. apply Permutation_length in Hp.
  rewrite length_app in Hp. apply length_zero_iff_nil. lia.
Qed.

Lemma enforce_rows_below_limit_witness :
  Z.of_nat (List.length same_instant) <= 5 /\
  enforce_rows (E := stable_engine) PizzaTable 0 5 same_instant = same_instant.
Proof.
  assert (Hlen : Z.of_nat (List.length same_instant) <= 5) by (simpl; lia).
  split; [exact Hlen|].
  exact (proj1 (enforce_rows_below_limit stable_engine_laws PizzaTable 0 5
                  same_instant Hlen)).
Defined.

(** ** Registering and logging in *)

(** A row strictly newer than all others heads every ordering, and is
    listed by the subquery whenever [maximum] is positive. *)
Lemma newest_row_listed {E : Engine} {L : EngineLaws E} {R : Type}
  (T : Table R) (maximum : Z) (l : list R) (x : R) :
  0 < maximum -> In x l ->
  (forall r, In r l -> r = x \/ row_created_at T r < row_created_at T x) ->
  In (row_id T x) (newest_ids T maximum l).
Proof.
  intros Hpos Hin Hnew. unfold newest_ids.
  pose proof (order_by_desc_perm R (row_created_at T) l) as Hp.
  pose proof (order_by_desc_sorted R (row_created_at T) l) as Hs.
  destruct (order_by_desc (row_created_at T) l) as [|h t].
  - apply Permutation_sym, Permutation_nil in Hp. subst. contradiction.
  - assert (Hh : h = x).
    { assert (Hhl : In h l)
        by (eapply Permutation_in; [apply Permutation_sym, Hp | now left]).
      destruct (Hnew h Hhl) as [Heq|Hlt]; [exact Heq|].
      assert (Hx : In x (h :: t)) by (eapply Permutation_in; eauto).
      destruct Hx as [Heq|Hx]; [exact Heq|].
      inversion Hs as [|? ? _ Hall]; subst.
      rewrite Forall_forall in Hall. specialize (Hall x Hx).
      unfold desc in Hall. lia. }
    subst h. destruct (Z.to_nat maximum) as [|n] eqn:Hn; [lia|].
    simpl. now left.
Qed.

(** The row an insert appended stays after the enforcer has run if limits
    are off, if its identity is protected, or if it is the newest row. *)
Lemma appended_row_stays {E : Engine} {L : EngineLaws E} {R : Type}
  (T : Table R) (fixed maximum : Z) (old : list R) (x : R) :
  maximum <= 0 \/ row_id T x <= fixed \/
  (forall r, In r old -> row_created_at T r < row_created_at T x) ->
  In x (enforce_rows T fixed maximum (old ++ [x])).
Proof.
  intros H. apply enforce_rows_In.
  assert (Hin : In x (old ++ [x])) by (apply in_or_app; right; now left).
  split; [exact Hin|].
  destruct H as [H|[H|H]]; [tauto | tauto |].
  destruct (Z.le_gt_cases maximum 0) as [Hm|Hm]; [tauto|].
  right. left. apply newest_row_listed; [lia | exact Hin|].
  intros r Hr. apply in_app_or in Hr. destruct Hr as [Hr|[Hr|[]]].
  - right. now apply H.
  - left. now symmetry.
Qed.

Lemma find_the_one {A : Type} (p : A -> bool) (l : list A) (x : A) :
  In x l -> p x = true ->
  (forall y, In y l -> p y = true -> y = x) ->
  find p l = Some x.
Proof.
  induction l as [|a t IH]; simpl; intros Hin Hp Huniq; [contradiction|].
  destruct (p a) eqn:Ha.
  - f_equal. apply Huniq; auto.
  - destruct Hin as [->|Hin]; [congruence|].
    apply IH; auto.
Qed.

Lemma existsb_false_In {A : Type} (p : A -> bool) (l : list A) (x : A) :
  existsb p l = false -> In x l -> p x = false.
Proof.
  intros Hex Hin. destruct (p x) eqn:Hp; [|reflexivity].
  assert (existsb p l = true) by (apply existsb_exists; eauto). congruence.
Qed.

Section RegisterLogin.

Context {E : Engine}.

(** What a successful [RecordUser] has checked and done. *)
Lemma RecordUser_success_facts (c : Catalog) (env : Env) (user : User.t)
  (db : DB) :
  fst (RecordUser c env (user, db)) = None ->
  let id := assign_id (users_seq db) (User.ID user) in
  snd (HashPassword env (User.Password user)) = None /\
  id_in (map ur_id (users db)) id = false /\
  existsb (fun r => String.eqb (ur_username r) (User.Username user)) (users db)
  = false /\
  existsb (fun r => String.eqb (ur_token r) (GenerateUserToken (Intn env)))
          (users db) = false /\
  fst (snd (RecordUser c env (user, db))) =
  User.with_ID id
    (User.with_Token (GenerateUserToken (Intn env))
       (User.with_PasswordHash (fst (HashPassword env (User.Password user)))
          user)).
Proof.
  unfold RecordUser, RunInTx, tx_bind, insert_user, enforceTableSizeLimits.
  destruct (HashPassword env (User.Password user)) as [h [err|]];
    [discriminate|].
  cbv zeta. cbn [User.ID User.Username User.Token User.PasswordHash
                 User.with_Token User.with_PasswordHash fst snd].
  destruct (storage_fault env BeginTx); [discriminate|].
  destruct (storage_fault env InsertUser); [discriminate|].
  destruct (id_in (map ur_id (users db))
              (assign_id (users_seq db) (User.ID user))); [discriminate|].
  destruct (existsb (fun r => String.eqb (ur_username r) (User.Username user))
              (users db)); [discriminate|].
  destruct (existsb
              (fun r => String.eqb (ur_token r) (GenerateUserToken (Intn env)))
              (users db)); [discriminate|].
  destruct (maxUsers c <=? 0).
  - destruct (storage_fault env CommitTx); [discriminate|]. repeat split.
  - destruct (storage_fault env DeleteExcess); [discriminate|].
    destruct (storage_fault env CommitTx); [discriminate|]. repeat split.
Qed.

End RegisterLogin.

(** X3.  Register, then log in.  When [RecordUser] has returned no error
    and its row has stayed (limits off, a protected identity, or no older row
    with a timestamp as late), a later [LoginUser] with the same name and
    password, answered by the store and by a password helper that verifies
    the digest it made, returns the registered user: the assigned identity,
    the generated token, the digest, and no password. *)
Theorem register_then_login
  {E : Engine} (L : EngineLaws E) (c : Catalog) (env env' : Env)
  (user : User.t) (db : DB) :
  fst (RecordUser c env (user, db)) = None ->
  (maxUsers c <= 0 \/
   assign_id (users_seq db) (User.ID user) <= fixedUsers c \/
   (forall r, In r (users db) -> ur_created_at r < now env)) ->
  storage_fault env' SelectUser = None ->
  CheckPassword env' (User.Password user)
    (fst (HashPassword env (User.Password user))) = true ->
  LoginUser env' (snd (snd (RecordUser c env (user, db))))
    (User.Username user) (User.Password user)
  = (Some (User.mk (User.ID (fst (snd (RecordUser c env (user, db)))))
                   (User.Username user)
                   (GenerateUserToken (Intn env))
                   ""
                   (fst (HashPassword env (User.Password user)))),
     None).
Proof.
  intros Hok Hstay Hsel Hcheck.
  pose proof (RecordUser_success c env user db Hok) as Husers.
  destruct (RecordUser_success_facts c env user db Hok)
    as (_ & _ & Hname & _ & Harg).
  rewrite Harg. cbn [User.ID User.with_ID].
  set (row := {| ur_id := assign_id (users_seq db) (User.ID user);
                 ur_created_at := now env;
                 ur_username := User.Username user;
                 ur_token := GenerateUserToken (Intn env);
                 ur_password_hash :=
                   fst (HashPassword env (User.Password user)) |}) in *.
  assert (Hfind : find (fun r => String.eqb (ur_username r) (User.Username user))
                       (users (snd (snd (RecordUser c env (user, db)))))
                  = Some row).
  { rewrite Husers. apply find_the_one.
    - apply (appended_row_stays UserTable). exact Hstay.
    - apply String.eqb_refl.
    - intros y Hy Hyname. apply enforce_rows_incl in Hy.
      apply in_app_or in Hy. destruct Hy as [Hy|[Hy|[]]]; [|now symmetry].
      rewrite (existsb_false_In _ _ y Hname Hy) in Hyname. discriminate. }
  unfold LoginUser, scan_user_by_username. rewrite Hsel, Hfind.
  cbn [err_is user_of_row User.PasswordHash ur_password_hash row].
  rewrite Hcheck. reflexivity.
Qed.

Lemma register_then_login_witness :
  fst (RecordUser (E := stable_engine) tiny_catalog quiet_env (bob, alice_db))
  = None /\
  fst (LoginUser quiet_env
         (snd (snd (RecordUser (E := stable_engine) tiny_catalog quiet_env
                      (bob, alice_db))))
         "bob" "builder")
  = Some (User.mk 2 "bob" (GenerateUserToken (Intn quiet_env)) ""
                  "hash:builder").
Proof.
  assert (Hok : fst (RecordUser (E := stable_engine) tiny_catalog quiet_env
                       (bob, alice_db)) = None) by reflexivity.
  split; [exact Hok|].
  assert (Hstay : maxUsers tiny_catalog <= 0 \/
                  assign_id (users_seq alice_db) (User.ID bob)
                  <= fixedUsers tiny_catalog \/
                  (forall r, In r (users alice_db) ->
                             ur_created_at r < now quiet_env)).
  { right. right. intros r [<-|[]]. simpl. lia. }
  exact (f_equal fst
           (register_then_login stable_engine_laws tiny_catalog quiet_env
              quiet_env bob alice_db Hok Hstay eq_refl eq_refl)).
Defined.

(** ** Recording a recommendation *)

Lemma add_joins_fields (pizza_id : Z) (l : list Ingredient.t) :
  forall db,
    users (add_joins pizza_id l db) = users db /\
    users_seq (add_joins pizza_id l db) = users_seq db /\
    pizzas (add_joins pizza_id l db) = pizzas db /\
    pizzas_seq (add_joins pizza_id l db) = pizzas_seq db /\
    doughs (add_joins pizza_id l db) = doughs db /\
    ingredients (add_joins pizza_id l db) = ingredients db /\
    pizza_to_ingredients (add_joins pizza_id l db) =
    (pizza_to_ingredients db ++
     map (fun i => {| PizzaID := pizza_id; IngredientID := Ingredient.ID i |})
         l)%list.
Proof.
  unfold add_joins.
  induction l as [|i rest IH]; intros db; simpl.
  - rewrite app_nil_r. repeat split.
  - destruct (IH (add_pizza_to_ingredients
                    {| PizzaID := pizza_id; IngredientID := Ingredient.ID i |}
                    db)) as (H1 & H2 & H3 & H4 & H5 & H6 & H7).
    rewrite H1, H2, H3, H4, H5, H6, H7. simpl.
    rewrite <- app_assoc. repeat split.
Qed.

Section Recommendation.

Context {E : Engine}.

Lemma insert_ingredients_ok (env : Env) (l : list Ingredient.t) :
  forall (n : nat) (pizza p2 : Pizza.t) (db db2 : DB),
    insert_ingredients env n l (pizza, db) = (Ok tt, (p2, db2)) ->
    p2 = pizza /\ db2 = add_joins (Pizza.ID pizza) l db.
Proof.
  induction l as [|i rest IH]; intros n pizza p2 db db2; simpl.
  - unfold tx_ret. intros H. inversion H. auto.
  - unfold tx_bind, insert_pizza_to_ingredients.
    destruct (storage_fault env (InsertPizzaToIngredients n));
      [discriminate|].
    intros H. apply IH in H. exact H.
Qed.

(** What the function run in the transaction has done when it returns no
    error. *)
Lemma record_recommendation_tx_ok (c : Catalog) (env : Env)
  (pizza p' : Pizza.t) (db db' : DB) :
  record_recommendation_tx c env (pizza, db) = (Ok tt, (p', db')) ->
  let id := assign_id (pizzas_seq db) (Pizza.ID pizza) in
  id_in (map pr_id (pizzas db)) id = false /\
  p' = Pizza.with_ID id pizza /\
  pizzas db' =
  enforce_rows PizzaTable (fixedPizzas c) (maxPizzas c)
    (pizzas db ++ [{| pr_id := id; pr_created_at := now env;
                      pr_dough_id := Pizza.DoughID pizza |}]) /\
  pizza_to_ingredients db' =
  (pizza_to_ingredients db ++
   map (fun i => {| PizzaID := id; IngredientID := Ingredient.ID i |})
       (Pizza.Ingredients pizza))%list /\
  users db' = users db.
Proof.
  unfold record_recommendation_tx, tx_bind, insert_pizza.
  destruct (storage_fault env InsertPizza); [discriminate|].
  destruct (id_in (map pr_id (pizzas db))
              (assign_id (pizzas_seq db) (Pizza.ID pizza))) eqn:Hid;
    [discriminate|].
  set (id := assign_id (pizzas_seq db) (Pizza.ID pizza)).
  set (row := {| pr_id := id; pr_created_at := now env;
                 pr_dough_id := Pizza.DoughID pizza |}).
  destruct (insert_ingredients env 0
              (Pizza.Ingredients (Pizza.with_ID id pizza))
              (Pizza.with_ID id pizza, add_pizza row db))
    as [[[]|e] [p2 db2]] eqn:Hing; [|discriminate].
  apply insert_ingredients_ok in Hing. destruct Hing as [-> ->].
  cbn [Pizza.ID Pizza.with_ID Pizza.Ingredients].
  destruct (add_joins_fields id (Pizza.Ingredients pizza) (add_pizza row db))
    as (H1 & _ & H3 & _ & _ & _ & H7).
  unfold enforceTableSizeLimits, enforce_rows.
  destruct (maxPizzas c <=? 0).
  - intros H. inversion H; subst. cbv zeta. rewrite H1, H3, H7.
    repeat split.
  - destruct (storage_fault env DeleteExcess); [discriminate|].
    intros H. inversion H; subst. cbv zeta.
    cbn [rows set_rows PizzaTable pizzas users pizza_to_ingredients set_pizzas].
    rewrite H1, H3, H7. repeat split.
Qed.

Lemma RecordRecommendation_success_facts (c : Catalog) (env : Env)
  (pizza p' : Pizza.t) (db db' : DB) :
  RecordRecommendation c env (pizza, db) = Returns (None, (p', db')) ->
  exists dough,
    Pizza.Dough pizza = Some dough /\
    let id := assign_id (pizzas_seq db) (Pizza.ID pizza) in
    id_in (map pr_id (pizzas db)) id = false /\
    p' = Pizza.with_ID id (Pizza.with_DoughID (Dough.ID dough) pizza) /\
    pizzas db' =
    enforce_rows PizzaTable (fixedPizzas c) (maxPizzas c)
      (pizzas db ++ [{| pr_id := id; pr_created_at := now env;
                        pr_dough_id := Dough.ID dough |}]) /\
    pizza_to_ingredients db' =
    (pizza_to_ingredients db ++
     map (fun i => {| PizzaID := id; IngredientID := Ingredient.ID i |})
         (Pizza.Ingredients pizza))%list /\
    users db' = users db.
Proof.
  unfold RecordRecommendation.
  destruct (InjectErrors env "record-recommendation"); [discriminate|].
  destruct (Pizza.Dough pizza) as [dough|]; [|discriminate].
  cbv zeta. set (p := Pizza.with_DoughID (Dough.ID dough) pizza).
  intros H.
  assert (Hrun : RunInTx env (record_recommendation_tx c env) (p, db)
                 = (None, (p', db'))) by congruence.
  clear H. exists dough. split; [reflexivity|].
  destruct (RunInTx_cases env (record_recommendation_tx c env) p db)
    as [[Hne _]|(_ & Hok & Hout)].
  - rewrite Hrun in Hne. now elim Hne.
  - rewrite Hrun in Hout. cbn [snd] in Hout.
    destruct (record_recommendation_tx c env (p, db)) as [r [p2 db2]] eqn:Htx.
    cbn [fst snd] in *. subst r. inversion Hout; subst p2 db2.
    exact (record_recommendation_tx_ok c env p p' db db' Htx).
Qed.

Lemma RecordRecommendation_rollback (c : Catalog) (env : Env)
  (pizza p' : Pizza.t) (db db' : DB) (err : error) :
  RecordRecommendation c env (pizza, db) = Returns (Some err, (p', db')) ->
  db' = db.
Proof.
  unfold RecordRecommendation.
  destruct (InjectErrors env "record-recommendation") as [e|].
  - intros H. now inversion H.
  - destruct (Pizza.Dough pizza) as [dough|]; [|discriminate].
    cbv zeta. set (p := Pizza.with_DoughID (Dough.ID dough) pizza).
    intros H.
    assert (Hrun : RunInTx env (record_recommendation_tx c env) (p, db)
                   = (Some err, (p', db'))) by congruence.
    pose proof (RunInTx_rollback env (record_recommendation_tx c env)
                  p db err) as Hrb.
    rewrite Hrun in Hrb. now apply Hrb.
Qed.

End Recommendation.

(** X4.  A recommendation recorded without error has put into the store
    one pizza row, with the identity the store assigned (an identity no
    pizza had) and the identity of its dough, and one join row per
    ingredient, in the order of the ingredients, each with that pizza
    identity; the enforcer has then run on the pizzas table.  The argument
    comes back with the assigned identity and the dough identity filled in,
    and the users table is as it was. *)
Theorem RecordRecommendation_records_pizza_and_joins
  {E : Engine} (c : Catalog) (env : Env) (pizza p' : Pizza.t) (db db' : DB) :
  RecordRecommendation c env (pizza, db) = Returns (None, (p', db')) ->
  exists dough,
    Pizza.Dough pizza = Some dough /\
    let id := assign_id (pizzas_seq db) (Pizza.ID pizza) in
    ~ In id (map pr_id (pizzas db)) /\
    p' = Pizza.with_ID id (Pizza.with_DoughID (Dough.ID dough) pizza) /\
    pizzas db' =
    enforce_rows PizzaTable (fixedPizzas c) (maxPizzas c)
      (pizzas db ++ [{| pr_id := id; pr_created_at := now env;
                        pr_dough_id := Dough.ID dough |}]) /\
    pizza_to_ingredients db' =
    (pizza_to_ingredients db ++
     map (fun i => {| PizzaID := id; IngredientID := Ingredient.ID i |})
         (Pizza.Ingredients pizza))%list /\
    users db' = users db.
Proof.
  intros H. apply RecordRecommendation_success_facts in H.
  destruct H as (dough & Hd & Hid & Hrest). exists dough.
  split; [exact Hd|]. split; [|exact Hrest].
  rewrite <- id_in_In. now rewrite Hid.
Qed.

Lemma RecordRecommendation_records_pizza_and_joins_witness :
  exists p' db',
    RecordRecommendation (E := stable_engine) default_catalog quiet_env
      (margherita, empty_db) = Returns (None, (p', db')) /\
    List.length (pizzas db') = 1%nat /\
    pizza_to_ingredients db' =
    [{| PizzaID := 1; IngredientID := 1 |};
     {| PizzaID := 1; IngredientID := 2 |}].
Proof.
  eexists. eexists. split; [reflexivity|].
  destruct (RecordRecommendation_records_pizza_and_joins (E := stable_engine)
              default_catalog quiet_env margherita _ empty_db _ eq_refl)
    as (dough & _ & _ & _ & _ & Hjoins & _).
  split; [reflexivity | exact Hjoins].
Defined.

(** X5.  Recording a recommendation is all or nothing: whenever
    [RecordRecommendation] returns an error, be it injected or from the
    begin, the pizza insert, any join insert, the enforcer's DELETE or the
    commit, the store is exactly as it was before the call. *)
Theorem RecordRecommendation_all_or_nothing
  {E : Engine} (c : Catalog) (env : Env) (pizza p' : Pizza.t) (db db' : DB)
  (err : error) :
  RecordRecommendation c env (pizza, db) = Returns (Some err, (p', db')) ->
  db' = db.
Proof.
  apply RecordRecommendation_rollback.
Qed.

Lemma RecordRecommendation_all_or_nothing_witness :
  RecordRecommendation (E := stable_engine) tiny_catalog failing_join_env
    (margherita, empty_db)
  = Returns (Some (Err "disk I/O error"),
             (Pizza.with_ID 1 (Pizza.with_DoughID 1 margherita), empty_db)) /\
  empty_db = empty_db.
Proof.
  assert (H : RecordRecommendation (E := stable_engine) tiny_catalog
                failing_join_env (margherita, empty_db)
              = Returns (Some (Err "disk I/O error"),
                         (Pizza.with_ID 1 (Pizza.with_DoughID 1 margherita),
                          empty_db))) by reflexivity.
  split; [exact H|].
  exact (RecordRecommendation_all_or_nothing (E := stable_engine)
           tiny_catalog failing_join_env margherita _ empty_db empty_db _ H).
Defined.

(** ** What a call of the recorder leaves alone *)

Ltac tx_cases :=
  repeat match goal with
         | |- context [match storage_fault ?e ?s with _ => _ end] =>
             destruct (storage_fault e s)
         | |- context [if ?b then _ else _] => destruct b eqn:?
         end.

Lemma same_but_users_refl (db : DB) : same_but_users db db.
Proof. repeat split. Qed.

Lemma same_but_users_trans (a b d : DB) :
  same_but_users a b -> same_but_users b d -> same_but_users a d.
Proof.
  unfold same_but_users. intros (H1 & H2 & H3 & H4 & H5) (K1 & K2 & K3 & K4 & K5).
  repeat split; congruence.
Qed.

Lemma same_but_pizzas_refl (db : DB) : same_but_pizzas db db.
Proof. repeat split. Qed.

Lemma same_but_pizzas_trans (a b d : DB) :
  same_but_pizzas a b -> same_but_pizzas b d -> same_but_pizzas a d.
Proof.
  unfold same_but_pizzas. intros (H1 & H2 & H3 & H4) (K1 & K2 & K3 & K4).
  repeat split; congruence.
Qed.

Section Frame.

Context {E : Engine}.

Lemma RecordUser_frame (c : Catalog) (env : Env) (user : User.t) (db : DB) :
  same_but_users db (snd (snd (RecordUser c env (user, db)))).
Proof.
  unfold RecordUser.
  destruct (HashPassword env (User.Password user)) as [h [err|]];
    [apply same_but_users_refl|].
  cbv zeta. apply RunInTx_keeps; [apply same_but_users_refl|].
  apply tx_bind_keeps; [apply same_but_users_trans | |].
  - intros u d. unfold insert_user. tx_cases; repeat split.
  - intros _ u d. unfold enforceTableSizeLimits. tx_cases; repeat split.
Qed.

Lemma insert_ingredients_frame (env : Env) (l : list Ingredient.t) :
  forall n, tx_keeps same_but_pizzas (insert_ingredients env n l).
Proof.
  induction l as [|i rest IH]; intros n pizza db; simpl.
  - apply same_but_pizzas_refl.
  - apply (tx_bind_keeps same_but_pizzas).
    + apply same_but_pizzas_trans.
    + intros g d. unfold insert_pizza_to_ingredients. tx_cases; repeat split.
    + intros _. apply IH.
Qed.

Lemma record_recommendation_tx_frame (c : Catalog) (env : Env) :
  tx_keeps same_but_pizzas (record_recommendation_tx c env).
Proof.
  unfold record_recommendation_tx.
  apply tx_bind_keeps; [apply same_but_pizzas_trans | |].
  - intros p d. unfold insert_pizza. tx_cases; repeat split.
  - intros _. apply tx_bind_keeps; [apply same_but_pizzas_trans | |].
    + intros p d. apply insert_ingredients_frame.
    + intros _ p d. unfold enforceTableSizeLimits. tx_cases; repeat split.
Qed.

Lemma RecordRecommendation_frame (c : Catalog) (env : Env) (pizza : Pizza.t)
  (db : DB) :
  same_but_pizzas db (serve c db (RecordPizza env pizza)).
Proof.
  unfold serve, RecordRecommendation.
  destruct (InjectErrors env "record-recommendation");
    [apply same_but_pizzas_refl|].
  destruct (Pizza.Dough pizza); [|apply same_but_pizzas_refl].
  cbv beta iota zeta. apply RunInTx_keeps; [apply same_but_pizzas_refl|].
  apply record_recommendation_tx_frame.
Qed.

Lemma serve_reference_data (c : Catalog) (db : DB) (req : request) :
  doughs (serve c db req) = doughs db /\
  ingredients (serve c db req) = ingredients db.
Proof.
  destruct req as [env user|env pizza].
  - destruct (RecordUser_frame c env user db) as (_ & _ & _ & H1 & H2).
    now split.
  - destruct (RecordRecommendation_frame c env pizza db) as (_ & _ & H1 & H2).
    now split.
Qed.

Lemma serve_all_reference_data (c : Catalog) (reqs : list request) :
  forall db,
    doughs (serve_all c reqs db) = doughs db /\
    ingredients (serve_all c reqs db) = ingredients db.
Proof.
  unfold serve_all.
  induction reqs as [|req rest IH]; intros db; simpl; [now split|].
  destruct (IH (serve c db req)) as [H1 H2].
  destruct (serve_reference_data c db req) as [K1 K2].
  split; congruence.
Qed.

End Frame.

(** X6.  A call of the recorder for one table leaves the others alone:
    [RecordUser] changes nothing but the users table and its sequence,
    [RecordRecommendation] changes neither the users table nor its sequence,
    and no sequence of calls ever changes the doughs or the ingredients. *)
Theorem recorder_leaves_other_tables
  {E : Engine} (c : Catalog) :
  (forall env user db,
     let db' := snd (snd (RecordUser c env (user, db))) in
     pizzas db' = pizzas db /\ pizzas_seq db' = pizzas_seq db /\
     pizza_to_ingredients db' = pizza_to_ingredients db /\
     doughs db' = doughs db /\ ingredients db' = ingredients db) /\
  (forall env pizza db,
     let db' := serve c db (RecordPizza env pizza) in
     users db' = users db /\ users_seq db' = users_seq db /\
     doughs db' = doughs db /\ ingredients db' = ingredients db) /\
  (forall reqs db,
     doughs (serve_all c reqs db) = doughs db /\
     ingredients (serve_all c reqs db) = ingredients db).
Proof.
  split; [|split].
  - intros env user db. apply RecordUser_frame.
  - intros env pizza db. apply RecordRecommendation_frame.
  - intros reqs db. apply serve_all_reference_data.
Qed.

(** ** Recording, then fetching *)



(** ** Constraints the recorder keeps *)

Lemma NoDup_map_append {A B : Type} (key : A -> B) (l : list A) (x : A) :
  NoDup (map key l) -> ~ In (key x) (map key l) ->
  NoDup (map key (l ++ [x])).
Proof.
  intros Hnd Hx. rewrite map_app. simpl.
  eapply Permutation_NoDup; [apply Permutation_cons_append|].
  now constructor.
Qed.

Lemma existsb_eqb_not_in (l : list UserRow) (col : UserRow -> string)
  (v : string) :
  existsb (fun r => String.eqb (col r) v) l = false -> ~ In v (map col l).
Proof.
  intros Hex Hin. apply in_map_iff in Hin. destruct Hin as (r & Hr & Hrl).
  pose proof (existsb_false_In _ _ r Hex Hrl) as H. cbv beta in H.
  rewrite Hr, String.eqb_refl in H. discriminate.
Qed.

Section Unique.

Context {E : Engine}.

Lemma serve_unique (c : Catalog) (db : DB) (req : request) :
  unique_ok db -> unique_ok (serve c db req).
Proof.
  intros Hu. destruct req as [env user|env pizza].
  - unfold serve, RecordUser.
    destruct (HashPassword env (User.Password user)) as [h [err|]];
      [exact Hu|].
    cbv zeta.
    apply (RunInTx_keeps (fun d d' => unique_ok d -> unique_ok d'));
      [auto | | exact Hu].
    apply tx_bind_keeps; [auto | |].
    + intros u d. unfold insert_user.
      destruct (storage_fault env InsertUser); [auto|].
      destruct (id_in (map ur_id (users d))
                  (assign_id (users_seq d) (User.ID u))); [auto|].
      destruct (existsb
                  (fun r => String.eqb (ur_username r) (User.Username u))
                  (users d)) eqn:Hname; [auto|].
      destruct (existsb (fun r => String.eqb (ur_token r) (User.Token u))
                  (users d)) eqn:Htoken; [auto|].
      intros [H1 H2]. split; simpl.
      * apply NoDup_map_append; [exact H1|].
        now apply existsb_eqb_not_in.
      * apply NoDup_map_append; [exact H2|].
        now apply existsb_eqb_not_in.
    + intros _ u d. unfold enforceTableSizeLimits.
      destruct (maxUsers c <=? 0); [auto|].
      destruct (storage_fault env DeleteExcess); [auto|].
      intros [H1 H2]. unfold delete_excess.
      split; simpl; now apply NoDup_map_filter.
  - destruct (RecordRecommendation_frame c env pizza db) as (Husers & _).
    unfold unique_ok. now rewrite Husers.
Qed.

Lemma serve_all_unique (c : Catalog) (reqs : list request) :
  forall db, unique_ok db -> unique_ok (serve_all c reqs db).
Proof.
  unfold serve_all.
  induction reqs as [|req rest IH]; intros db H; simpl; [exact H|].
  apply IH. now apply serve_unique.
Qed.

End Unique.

(** X8.  The recorder keeps the constraints of its tables: from a store in
    which identities are keys of the users and pizzas tables and usernames
    and tokens are unique, every sequence of calls leads to such a store;
    no call ever leaves two users with one name, one token or one
    identity, or two pizzas with one identity. *)
Theorem recorder_keeps_constraints
  {E : Engine} (c : Catalog) (reqs : list request) (db : DB) :
  NoDup (map ur_id (users db)) -> NoDup (map pr_id (pizzas db)) ->
  NoDup (map ur_username (users db)) -> NoDup (map ur_token (users db)) ->
  let db' := serve_all c reqs db in
  NoDup (map ur_id (users db')) /\ NoDup (map pr_id (pizzas db')) /\
  NoDup (map ur_username (users db')) /\ NoDup (map ur_token (users db')).
Proof.
  intros H1 H2 H3 H4 db'.
  destruct (serve_all_keys c reqs db (conj H1 H2)) as [K1 K2].
  destruct (serve_all_unique c reqs db (conj H3 H4)) as [K3 K4].
  auto.
Qed.

Lemma recorder_keeps_constraints_witness :
  NoDup (map ur_id (users alice_db)) /\
  NoDup (map ur_username
           (users (serve_all (E := stable_engine) tiny_catalog
                     [RegisterUser quiet_env bob;
                      RegisterUser quiet_env (User.mk 0 "alice" "" "x" "");
                      RecordPizza quiet_env margherita]
                     alice_db))).
Proof.
  assert (H1 : NoDup (map ur_id (users alice_db)))
    by (apply distinct_NoDup; reflexivity).
  assert (H2 : NoDup (map pr_id (pizzas alice_db))) by constructor.
  assert (H3 : NoDup (map ur_username (users alice_db)))
    by (repeat constructor; simpl; tauto).
  assert (H4 : NoDup (map ur_token (users alice_db)))
    by (repeat constructor; simpl; tauto).
  split; [exact H1|].
  exact (proj1 (proj2 (proj2
           (recorder_keeps_constraints (E := stable_engine) tiny_catalog
              _ alice_db H1 H2 H3 H4)))).
Defined.

(** ** Limits switched off *)

Section Unlimited.

Context {E : Engine}.

Lemma insert_ingredients_pizzas (env : Env) (l : list Ingredient.t) :
  forall (n : nat) (pizza : Pizza.t) (db : DB),
    pizzas (snd (snd (insert_ingredients env n l (pizza, db)))) = pizzas db.
Proof.
  induction l as [|i rest IH]; intros n pizza db; simpl; [reflexivity|].
  unfold tx_bind, insert_pizza_to_ingredients.
  destruct (storage_fault env (InsertPizzaToIngredients n)); [reflexivity|].
  now rewrite IH.
Qed.

Lemma serve_keeps_users_unlimited (c : Catalog) (db : DB) (req : request) :
  maxUsers c <= 0 -> incl (users db) (users (serve c db req)).
Proof.
  intros Hmax. destruct req as [env user|env pizza].
  - unfold serve, RecordUser.
    destruct (HashPassword env (User.Password user)) as [h [err|]];
      [apply incl_refl|].
    cbv zeta.
    apply (RunInTx_keeps (fun d d' => incl (users d) (users d')));
      [apply incl_refl|].
    apply tx_bind_keeps; [intros a b d; apply incl_tran | |].
    + intros u d. unfold insert_user. tx_cases; simpl;
        try apply incl_refl. apply incl_appl, incl_refl.
    + intros _ u d. unfold enforceTableSizeLimits.
      rewrite (proj2 (Z.leb_le (maxUsers c) 0) Hmax). apply incl_refl.
  - destruct (RecordRecommendation_frame c env pizza db) as (Husers & _).
    rewrite Husers. apply incl_refl.
Qed.

Lemma serve_keeps_pizzas_unlimited (c : Catalog) (db : DB) (req : request) :
  maxPizzas c <= 0 -> incl (pizzas db) (pizzas (serve c db req)).
Proof.
  intros Hmax. destruct req as [env user|env pizza].
  - destruct (RecordUser_frame c env user db) as (Hpizzas & _).
    unfold serve. rewrite Hpizzas. apply incl_refl.
  - unfold serve, RecordRecommendation.
    destruct (InjectErrors env "record-recommendation"); [apply incl_refl|].
    destruct (Pizza.Dough pizza); [|apply incl_refl].
    cbv beta iota zeta.
    apply (RunInTx_keeps (fun d d' => incl (pizzas d) (pizzas d')));
      [apply incl_refl|].
    unfold record_recommendation_tx.
    apply tx_bind_keeps; [intros a b d; apply incl_tran | |].
    + intros p d. unfold insert_pizza. tx_cases; simpl;
        try apply incl_refl. apply incl_appl, incl_refl.
    + intros _. apply tx_bind_keeps; [intros a b d; apply incl_tran | |].
      * intros p d. rewrite insert_ingredients_pizzas. apply incl_refl.
      * intros _ p d. unfold enforceTableSizeLimits.
        rewrite (proj2 (Z.leb_le (maxPizzas c) 0) Hmax). apply incl_refl.
Qed.

Lemma serve_all_incl (c : Catalog) (R : Type) (table : DB -> list R)
  (reqs : list request) :
  (forall db req, incl (table db) (table (serve c db req))) ->
  forall db, incl (table db) (table (serve_all c reqs db)).
Proof.
  intros Hstep. unfold serve_all.
  induction reqs as [|req rest IH]; intros db; simpl; [apply incl_refl|].
  eapply incl_tran; [apply Hstep | apply IH].
Qed.

End Unlimited.

(** X9.  With a limit that is zero or negative the table only grows: if
    [maxUsers <= 0] no sequence of calls of the recorder ever deletes a
    user, and if [maxPizzas <= 0] none ever deletes a pizza. *)
Theorem limits_off_nothing_deleted
  {E : Engine} (c : Catalog) (reqs : list request) (db : DB) :
  (maxUsers c <= 0 ->
   forall r, In r (users db) -> In r (users (serve_all c reqs db))) /\
  (maxPizzas c <= 0 ->
   forall r, In r (pizzas db) -> In r (pizzas (serve_all c reqs db))).
Proof.
  split; intros Hmax r Hr.
  - apply (serve_all_incl c UserRow users reqs); [|exact Hr].
    intros d req. now apply serve_keeps_users_unlimited.
  - apply (serve_all_incl c PizzaRow pizzas reqs); [|exact Hr].
    intros d req. now apply serve_keeps_pizzas_unlimited.
Qed.

Lemma limits_off_nothing_deleted_witness :
  maxPizzas (catalog_parameters unlimited_pizzas) <= 0 /\
  fixedPizzas (catalog_parameters unlimited_pizzas) = 0 /\
  map pr_id
      (pizzas (serve_all (E := stable_engine)
                 (catalog_parameters unlimited_pizzas)
                 [RecordPizza quiet_env margherita;
                  RecordPizza quiet_env margherita]
                 pizzeria))
  = [1; 2; 3; 4; 5; 6; 7] /\
  In (pizza_row 1 10)
     (pizzas (serve_all (E := stable_engine)
                (catalog_parameters unlimited_pizzas)
                [RecordPizza quiet_env margherita;
                 RecordPizza quiet_env margherita]
                pizzeria)).
Proof.
  assert (Hmax : maxPizzas (catalog_parameters unlimited_pizzas) <= 0)
    by (vm_compute; discriminate).
  split; [exact Hmax|]. split; [reflexivity|]. split; [reflexivity|].
  apply (proj2 (limits_off_nothing_deleted (E := stable_engine)
                  (catalog_parameters unlimited_pizzas) _ pizzeria) Hmax).
  simpl. now left.
Defined.

(** ** The limits after a sequence of calls *)

Lemma enforce_rows_caps_users {E : Engine} {L : EngineLaws E} (c : Catalog)
  (l : list UserRow) :
  NoDup (map ur_id l) -> 0 < maxUsers c ->
  Z.of_nat (List.length
              (unprotected UserTable (fixedUsers c)
                 (enforce_rows UserTable (fixedUsers c) (maxUsers c) l)))
  <= maxUsers c.
Proof.
  intros Hnd Hpos. unfold enforce_rows.
  rewrite (proj2 (Z.leb_gt (maxUsers c) 0) Hpos).
  apply (delete_excess_unprotected UserTable); [exact Hnd | lia].
Qed.

Lemma enforce_rows_caps_pizzas {E : Engine} {L : EngineLaws E} (c : Catalog)
  (l : list PizzaRow) :
  NoDup (map pr_id l) -> 0 < maxPizzas c ->
  Z.of_nat (List.length
              (unprotected PizzaTable (fixedPizzas c)
                 (enforce_rows PizzaTable (fixedPizzas c) (maxPizzas c) l)))
  <= maxPizzas c.
Proof.
  intros Hnd Hpos. unfold enforce_rows.
  rewrite (proj2 (Z.leb_gt (maxPizzas c) 0) Hpos).
  apply (delete_excess_unprotected PizzaTable); [exact Hnd | lia].
Qed.

Section Limits.

Context {E : Engine} {L : EngineLaws E}.

Lemma serve_within_limits (c : Catalog) (db : DB) (req : request) :
  0 < maxUsers c -> 0 < maxPizzas c ->
  keys_ok db -> within_limits c db -> within_limits c (serve c db req).
Proof.
  intros Hmu Hmp [Hku Hkp] [Hu Hp].
  destruct req as [env user|env pizza]; unfold serve.
  - destruct (RecordUser_frame c env user db) as (Hpizzas & _).
    split; [|now rewrite Hpizzas].
    destruct (fst (RecordUser c env (user, db))) as [err|] eqn:Hres.
    + now rewrite (RecordUser_rollback c env user db err Hres).
    + rewrite (RecordUser_success c env user db Hres).
      destruct (RecordUser_success_facts c env user db Hres)
        as (_ & Hid & _).
      apply (enforce_rows_caps_users c); [|exact Hmu].
      apply NoDup_map_snoc; assumption.
  - pose proof (RecordRecommendation_frame c env pizza db) as Hframe.
    unfold serve in Hframe.
    destruct (RecordRecommendation c env (pizza, db))
      as [[[err|] [p' db']]|msg] eqn:Hres; cbn [snd] in *.
    + rewrite (RecordRecommendation_rollback c env pizza p' db db' err Hres).
      now split.
    + destruct Hframe as (Husers & _). split; [now rewrite Husers|].
      destruct (RecordRecommendation_success_facts c env pizza p' db db' Hres)
        as (dough & _ & Hid & _ & Hpizzas & _).
      rewrite Hpizzas.
      apply (enforce_rows_caps_pizzas c); [|exact Hmp].
      apply NoDup_map_snoc; assumption.
    + now split.
Qed.

Lemma serve_all_within_limits (c : Catalog) (reqs : list request) :
  0 < maxUsers c -> 0 < maxPizzas c ->
  forall db, keys_ok db -> within_limits c db ->
             within_limits c (serve_all c reqs db).
Proof.
  intros Hmu Hmp. unfold serve_all.
  induction reqs as [|req rest IH]; intros db Hk Hw; simpl; [exact Hw|].
  apply IH.
  - now apply serve_keys.
  - now apply serve_within_limits.
Qed.

End Limits.

(** X10.  Called one after the other, the recorder keeps both tables within
    their limits: with positive limits and identities that are keys, if at
    most [maxUsers] users have an identity greater than [fixedUsers] and at
    most [maxPizzas] pizzas one greater than [fixedPizzas], the same holds
    after every sequence of calls, whether they succeed or fail. *)
Theorem recorder_keeps_within_limits
  {E : Engine} (L : EngineLaws E) (c : Catalog) (reqs : list request)
  (db : DB) :
  0 < maxUsers c -> 0 < maxPizzas c ->
  NoDup (map ur_id (users db)) -> NoDup (map pr_id (pizzas db)) ->
  Z.of_nat (List.length (unprotected UserTable (fixedUsers c) (users db)))
  <= maxUsers c ->
  Z.of_nat (List.length (unprotected PizzaTable (fixedPizzas c) (pizzas db)))
  <= maxPizzas c ->
  let db' := serve_all c reqs db in
  Z.of_nat (List.length (unprotected UserTable (fixedUsers c) (users db')))
  <= maxUsers c /\
  Z.of_nat (List.length (unprotected PizzaTable (fixedPizzas c) (pizzas db')))
  <= maxPizzas c.
Proof.
  intros Hmu Hmp Hku Hkp Hu Hp db'.
  apply (serve_all_within_limits c reqs Hmu Hmp db (conj Hku Hkp) (conj Hu Hp)).
Qed.

Lemma recorder_keeps_within_limits_witness :
  0 < maxUsers tiny_catalog /\
  Z.of_nat (List.length
              (unprotected UserTable (fixedUsers tiny_catalog)
                 (users (serve_all (E := stable_engine) tiny_catalog
                           [RegisterUser quiet_env bob;
                            RecordPizza quiet_env margherita;
                            RecordPizza failing_join_env margherita]
                           alice_db))))
  <= maxUsers tiny_catalog.
Proof.
  assert (Hmu : 0 < maxUsers tiny_catalog) by (simpl; lia).
  assert (Hmp : 0 < maxPizzas tiny_catalog) by (simpl; lia).
  assert (Hku : NoDup (map ur_id (users alice_db)))
    by (apply distinct_NoDup; reflexivity).
  assert (Hkp : NoDup (map pr_id (pizzas alice_db))) by constructor.
  assert (Hu : Z.of_nat (List.length
                           (unprotected UserTable (fixedUsers tiny_catalog)
                              (users alice_db)))
               <= maxUsers tiny_catalog) by (simpl; lia).
  assert (Hp : Z.of_nat (List.length
                           (unprotected PizzaTable (fixedPizzas tiny_catalog)
                              (pizzas alice_db)))
               <= maxPizzas tiny_catalog) by (simpl; lia).
  split; [exact Hmu|].
  exact (proj1 (recorder_keeps_within_limits stable_engine_laws tiny_catalog
                  _ alice_db Hmu Hmp Hku Hkp Hu Hp)).
Defined.

(** ** Fetching recommendations *)



Lemma StronglySorted_app_split {A : Type} (le : A -> A -> Prop)
  (l1 l2 : list A) :
  StronglySorted le (l1 ++ l2) ->
  StronglySorted le l1 /\
  (forall a b, In a l1 -> In b l2 -> le a b).
Proof.
  induction l1 as [|x t IH]; simpl; intros H.
  - split; [constructor | contradiction].
  - inversion H as [|? ? Hs Hall]; subst.
    destruct (IH Hs) as [Ht Hcross].
    rewrite Forall_forall in Hall. split.
    + constructor; [exact Ht|].
      rewrite Forall_forall. intros y Hy. apply Hall.
      apply in_or_app. now left.
    + intros a b [->|Ha] Hb.
      * apply Hall. apply in_or_app. now right.
      * now apply Hcross.
Qed.

(** X12.  The lookup answering and [limit] positive, [GetHistory] returns,
    without error, the pizzas of at most [limit] rows of the table (of
    [limit] rows when the table has as many), newest first, and no row it
    leaves out is newer than one it returns. *)
Theorem GetHistory_newest_first
  {E : Engine} (L : EngineLaws E) (env : Env) (db : DB) (limit : Z) :
  storage_fault env SelectPizza = None -> 0 < limit ->
  exists sel rest,
    GetHistory env db limit = (map (pizza_of_row db) sel, None) /\
    Permutation (pizzas db) (sel ++ rest) /\
    Z.of_nat (List.length sel)
    = Z.min limit (Z.of_nat (List.length (pizzas db))) /\
    StronglySorted (desc pr_created_at) sel /\
    (forall a b, In a sel -> In b rest ->
                 pr_created_at b <= pr_created_at a).
Proof.
  intros Hsel Hpos.
  pose proof (order_by_desc_perm PizzaRow pr_created_at (pizzas db)) as Hp.
  pose proof (order_by_desc_sorted PizzaRow pr_created_at (pizzas db)) as Hs.
  exists (firstn (Z.to_nat limit) (order_by_desc pr_created_at (pizzas db))).
  exists (skipn (Z.to_nat limit) (order_by_desc pr_created_at (pizzas db))).
  rewrite <- (firstn_skipn (Z.to_nat limit)) in Hs.
  apply StronglySorted_app_split in Hs. destruct Hs as [Hs Hcross].
  split; [|split; [|split; [|split]]].
  - unfold GetHistory. rewrite Hsel.
    now rewrite (proj2 (Z.leb_gt limit 0) Hpos).
  - now rewrite firstn_skipn.
  - rewrite length_firstn, <- (Permutation_length Hp). lia.
  - exact Hs.
  - intros a b Ha Hb. now apply (Hcross a b).
Qed.

Lemma GetHistory_newest_first_witness :
  storage_fault quiet_env SelectPizza = None /\ 0 < 2 /\
  exists sel rest,
    GetHistory (E := stable_engine) quiet_env pizzeria 2
    = (map (pizza_of_row pizzeria) sel, None) /\
    Permutation (pizzas pizzeria) (sel ++ rest) /\
    Z.of_nat (List.length sel)
    = Z.min 2 (Z.of_nat (List.length (pizzas pizzeria))) /\
    StronglySorted (desc pr_created_at) sel /\
    (forall a b, In a sel -> In b rest ->
                 pr_created_at b <= pr_created_at a).
Proof.
  assert (Hsel : storage_fault quiet_env SelectPizza = None) by reflexivity.
  assert (Hpos : 0 < 2) by lia.
  split; [exact Hsel|]. split; [exact Hpos|].
  exact (GetHistory_newest_first stable_engine_laws quiet_env pizzeria 2
           Hsel Hpos).
Defined.

(** ** Configuration *)

Lemma digit_of_digit_char (d : Z) :
  0 <= d <= 9 -> digit_of (digit_char d) = Some d.
Proof.
  intros H.
  assert (Hd : d = 0 \/ d = 1 \/ d = 2 \/ d = 3 \/ d = 4 \/ d = 5 \/ d = 6 \/
               d = 7 \/ d = 8 \/ d = 9) by lia.
  repeat (destruct Hd as [->|Hd]; [reflexivity|]). subst. reflexivity.
Qed.

Lemma digit_char_no_sign (d : Z) :
  0 <= d <= 9 ->
  Ascii.eqb (digit_char d) "-" = false /\ Ascii.eqb (digit_char d) "+" = false.
Proof.
  intros H.
  assert (Hd : d = 0 \/ d = 1 \/ d = 2 \/ d = 3 \/ d = 4 \/ d = 5 \/ d = 6 \/
               d = 7 \/ d = 8 \/ d = 9) by lia.
  repeat (destruct Hd as [->|Hd]; [split; reflexivity|]).
  subst. split; reflexivity.
Qed.

(** Printing puts a digit in front. *)
Lemma format_digits_head (fuel : nat) :
  forall (n : Z) (acc : list ascii),
    0 <= n ->
    exists d rest, 0 <= d <= 9 /\
                   format_digits (S fuel) n acc = digit_char d :: rest.
Proof.
  induction fuel as [|fuel IH]; intros n acc Hn.
  - exists (n mod 10), acc. split; [pose proof (Z.mod_pos_bound n 10); lia|].
    simpl. now destruct (n <? 10).
  - cbn [format_digits]. destruct (n <? 10) eqn:Hlt.
    + exists (n mod 10), acc. split; [pose proof (Z.mod_pos_bound n 10); lia|].
      reflexivity.
    + apply (IH (n / 10)). apply Z.div_pos; lia.
Qed.

(** Parsing what was printed gives the number back. *)
Lemma parse_format_digits (fuel : nat) :
  forall n : Z,
    0 <= n < 10 ^ Z.of_nat fuel ->
    exists m, forall (a : Z) (acc : list ascii),
      parse_digits a (format_digits fuel n acc) = parse_digits (a * m + n) acc.
Proof.
  induction fuel as [|fuel IH]; intros n Hn.
  - simpl in Hn. exists 1. intros a acc. simpl.
    f_equal. lia.
  - cbn [format_digits]. destruct (Z.ltb_spec n 10) as [Hlt|Hge].
    + exists 10. intros a acc. cbn [parse_digits].
      rewrite digit_of_digit_char by (pose proof (Z.mod_pos_bound n 10); lia).
      rewrite Z.mod_small by lia. reflexivity.
    + assert (Hdiv : 0 <= n / 10 < 10 ^ Z.of_nat fuel).
      { split; [apply Z.div_pos; lia|].
        apply Z.div_lt_upper_bound; [lia|].
        rewrite Nat2Z.inj_succ, Z.pow_succ_r in Hn by lia. lia. }
      destruct (IH (n / 10) Hdiv) as [m Hm].
      exists (m * 10). intros a acc. rewrite Hm. cbn [parse_digits].
      rewrite digit_of_digit_char by (pose proof (Z.mod_pos_bound n 10); lia).
      f_equal. pose proof (Z.div_mod n 10). lia.
Qed.

Lemma parse_format_20 (n : Z) :
  0 <= n <= 2 ^ 63 -> parse_digits 0 (format_digits 20 n []) = Some n.
Proof.
  intros Hn.
  destruct (parse_format_digits 20 n) as [m Hm].
  - split; [lia|]. change (10 ^ Z.of_nat 20) with 100000000000000000000.
    change (2 ^ 63) with 9223372036854775808 in Hn. lia.
  - rewrite Hm. simpl. reflexivity.
Qed.

(** [Atoi] reads what [Itoa] writes. *)
Lemma Atoi_Itoa (z : Z) : min_int <= z <= max_int -> Atoi (Itoa z) = Some z.
Proof.
  unfold min_int, max_int. intros Hz. unfold Atoi, Itoa.
  destruct (Z.ltb_spec z 0) as [Hneg|Hpos].
  - cbn [list_ascii_of_string]. rewrite list_ascii_of_string_of_list_ascii.
    change (Ascii.eqb "-" "-") with true. cbv zeta. cbn [orb].
    destruct (format_digits_head 19 (- z) []) as (d & rest & Hd & Hhead);
      [lia|].
    pose proof (parse_format_20 (- z)) as Hparse.
    rewrite Hhead in *. rewrite Hparse by lia.
    rewrite Z.opp_involutive. unfold min_int, max_int.
    destruct (Z.leb_spec (- 2 ^ 63) z); [|lia].
    destruct (Z.leb_spec z (2 ^ 63 - 1)); [reflexivity | lia].
  - rewrite list_ascii_of_string_of_list_ascii.
    destruct (format_digits_head 19 z []) as (d & rest & Hd & Hhead);
      [lia|].
    pose proof (parse_format_20 z) as Hparse.
    rewrite Hhead in *.
    destruct (digit_char_no_sign d Hd) as [H1 H2].
    cbv zeta. rewrite H1, H2. cbn [orb]. rewrite Hparse by lia.
    unfold min_int, max_int.
    destruct (Z.leb_spec (- 2 ^ 63) z); [|lia].
    destruct (Z.leb_spec z (2 ^ 63 - 1)); [reflexivity | lia].
Qed.

Lemma parse_digits_not_digit (l : list ascii) (c : ascii) :
  In c l -> digit_of c = None -> forall n, parse_digits n l = None.
Proof.
  induction l as [|x t IH]; simpl; intros Hin Hc n; [contradiction|].
  destruct Hin as [->|Hin].
  - now rewrite Hc.
  - destruct (digit_of x); [now apply IH | reflexivity].
Qed.

(** [Atoi] accepts nothing but digits after the first character. *)
Lemma Atoi_not_digit (v : string) (c : ascii) :
  In c (tl (list_ascii_of_string v)) -> digit_of c = None -> Atoi v = None.
Proof.
  intros Hin Hc. unfold Atoi.
  destruct (list_ascii_of_string v) as [|c0 rest]; [reflexivity|].
  simpl in Hin. cbv zeta.
  destruct (Ascii.eqb c0 "-" || Ascii.eqb c0 "+").
  - destruct rest as [|r rest']; [reflexivity|].
    now rewrite (parse_digits_not_digit (r :: rest') c Hin Hc).
  - rewrite (parse_digits_not_digit (c0 :: rest) c (or_intror Hin) Hc).
    reflexivity.
Qed.

Lemma Atoi_range (v : string) (z : Z) :
  Atoi v = Some z -> min_int <= z <= max_int.
Proof.
  unfold Atoi.
  destruct (list_ascii_of_string v) as [|c0 rest]; [discriminate|].
  cbv zeta.
  destruct (if Ascii.eqb c0 "-" || Ascii.eqb c0 "+" then rest else c0 :: rest)
    as [|x l]; [discriminate|].
  destruct (parse_digits 0 (x :: l)) as [n|]; [|discriminate].
  destruct ((min_int <=? (if Ascii.eqb c0 "-" then - n else n))
            && ((if Ascii.eqb c0 "-" then - n else n) <=? max_int)) eqn:Hr;
    [|discriminate].
  intros H. inversion H; subst.
  apply andb_true_iff in Hr. destruct Hr as [H1 H2].
  apply Z.leb_le in H1, H2. lia.
Qed.

(** X13.  [envInt] returns the default when the variable is unset, when it
    is empty and when it holds anything but digits after its first
    character; it returns [z] when the variable holds the decimal numeral of
    an integer [z] that fits [int]; and what it returns is always the
    default or an integer that fits [int]. *)
Theorem envInt_reads_decimal
  (environ : string -> option string) (name : string) (defaultVal : Z) :
  (environ name = None -> envInt environ name defaultVal = defaultVal) /\
  (forall z, min_int <= z <= max_int -> environ name = Some (Itoa z) ->
             envInt environ name defaultVal = z) /\
  (forall v, environ name = Some v ->
             v = "" \/
             (exists c, In c (tl (list_ascii_of_string v))
                        /\ digit_of c = None) ->
             envInt environ name defaultVal = defaultVal) /\
  (envInt environ name defaultVal = defaultVal \/
   min_int <= envInt environ name defaultVal <= max_int).
Proof.
  unfold envInt. repeat split.
  - intros ->. reflexivity.
  - intros z Hz ->. now rewrite Atoi_Itoa.
  - intros v -> [->|(c & Hin & Hc)]; [reflexivity|].
    now rewrite (Atoi_not_digit v c Hin Hc).
  - destruct (environ name) as [v|]; [|now left].
    destruct (Atoi v) as [b|] eqn:Hv; [|now left].
    right. now apply Atoi_range with v.
Qed.

Lemma envInt_reads_decimal_witness :
  min_int <= 250 <= max_int /\
  envInt (fun name => if String.eqb name "QUICKPIZZA_DB_MAX_USERS"
                      then Some (Itoa 250) else None)
         "QUICKPIZZA_DB_MAX_USERS" 5000 = 250.
Proof.
  assert (Hz : min_int <= 250 <= max_int) by (vm_compute; split; discriminate).
  split; [exact Hz|].
  exact (proj1 (proj2
           (envInt_reads_decimal
              (fun name => if String.eqb name "QUICKPIZZA_DB_MAX_USERS"
                           then Some (Itoa 250) else None)
              "QUICKPIZZA_DB_MAX_USERS" 5000)) 250 Hz eq_refl).
Defined.

(** X14.  [NewCatalog] uses the defaults 100, 10, 10, 5000, 5000 and 10000
    when none of its six variables is set, and setting
    QUICKPIZZA_DB_MAX_PIZZAS to zero or to a negative integer switches the
    limit of the pizzas table off: no sequence of calls of the recorder then
    deletes a pizza. *)
Theorem NewCatalog_parameters
  {E : Engine} (environ : string -> option string) :
  ((forall name,
      In name ["QUICKPIZZA_DB_FIXED_PIZZAS"; "QUICKPIZZA_DB_FIXED_USERS";
               "QUICKPIZZA_DB_FIXED_RATINGS"; "QUICKPIZZA_DB_MAX_PIZZAS";
               "QUICKPIZZA_DB_MAX_USERS"; "QUICKPIZZA_DB_MAX_RATINGS"] ->
      environ name = None) ->
   catalog_parameters environ = default_catalog) /\
  (forall z, min_int <= z <= 0 ->
             environ "QUICKPIZZA_DB_MAX_PIZZAS" = Some (Itoa z) ->
             forall reqs db r,
               In r (pizzas db) ->
               In r (pizzas (serve_all (catalog_parameters environ) reqs db))).
Proof.
  split.
  - intros Hunset. unfold catalog_parameters, envInt.
    rewrite !Hunset by (simpl; tauto). reflexivity.
  - intros z Hz Hvar reqs db r Hr.
    assert (Hmax : maxPizzas (catalog_parameters environ) <= 0).
    { unfold catalog_parameters, envInt. cbn [maxPizzas].
      rewrite Hvar, Atoi_Itoa; [lia|].
      unfold max_int. split; [tauto|]. 
      assert (0 <= 2 ^ 63 - 1) by (vm_compute; discriminate). lia. }
    apply (serve_all_incl (catalog_parameters environ) PizzaRow pizzas reqs);
      [|exact Hr].
    intros d req. now apply serve_keeps_pizzas_unlimited.
Qed.

Lemma NewCatalog_parameters_witness :
  min_int <= 0 <= 0 /\
  unlimited_pizzas "QUICKPIZZA_DB_MAX_PIZZAS" = Some (Itoa 0) /\
  fixedPizzas (catalog_parameters unlimited_pizzas) = 0 /\
  map pr_id
      (pizzas (serve_all (E := stable_engine)
                 (catalog_parameters unlimited_pizzas)
                 [RecordPizza quiet_env margherita;
                  RecordPizza quiet_env margherita]
                 pizzeria))
  = [1; 2; 3; 4; 5; 6; 7] /\
  In (pizza_row 1 10)
     (pizzas (serve_all (E := stable_engine)
                (catalog_parameters unlimited_pizzas)
                [RecordPizza quiet_env margherita;
                 RecordPizza quiet_env margherita]
                pizzeria)).
Proof.
  assert (Hz : min_int <= 0 <= 0) by (vm_compute; split; discriminate).
  assert (Hvar : unlimited_pizzas "QUICKPIZZA_DB_MAX_PIZZAS" = Some (Itoa 0))
    by reflexivity.
  split; [exact Hz|]. split; [exact Hvar|].
  split; [reflexivity|]. split; [reflexivity|].
  apply (proj2 (NewCatalog_parameters (E := stable_engine) unlimited_pizzas)
           0 Hz Hvar).
  simpl. now left.
Defined.

(** ** Tokens *)

(** X15.  A generated token has sixteen characters, each of them one of the
    62 letters and digits of [characters], whatever the random source
    draws. *)
Theorem GenerateUserToken_alphabet (env : Env) :
  String.length (GenerateUserToken (Intn env)) = 16%nat /\
  Forall (fun ch => In ch characters)
         (list_ascii_of_string (GenerateUserToken (Intn env))).
Proof.
  split; [apply GenerateUserToken_length|].
  unfold GenerateUserToken. rewrite list_ascii_of_string_of_list_ascii.
  apply Forall_forall. intros ch Hch.
  apply in_map_iff in Hch. destruct Hch as (i & <- & _).
  apply nth_In. unfold Intn. apply Nat.mod_upper_bound.
  discriminate.
Qed.

(** ** A name that is taken *)

(** X16.  A username is registered once: when a user of that name is in
    the table, [RecordUser] returns an error and leaves the store as it
    was. *)
Theorem RecordUser_taken_username
  {E : Engine} (c : Catalog) (env : Env) (user : User.t) (db : DB) :
  In (User.Username user) (map ur_username (users db)) ->
  fst (RecordUser c env (user, db)) <> None /\
  snd (snd (RecordUser c env (user, db))) = db.
Proof.
  intros Htaken.
  destruct (fst (RecordUser c env (user, db))) as [err|] eqn:Hres.
  - split; [discriminate|]. now apply RecordUser_rollback with err.
  - exfalso.
    destruct (RecordUser_success_facts c env user db Hres)
      as (_ & _ & Hname & _).
    now apply (existsb_eqb_not_in (users db) ur_username (User.Username user)).
Qed.

Lemma RecordUser_taken_username_witness :
  In "alice" (map ur_username (users alice_db)) /\
  snd (snd (RecordUser (E := stable_engine) default_catalog quiet_env
              (User.mk 0 "alice" "" "rabbit" "", alice_db))) = alice_db.
Proof.
  assert (H : In (User.Username (User.mk 0 "alice" "" "rabbit" ""))
                 (map ur_username (users alice_db))) by (simpl; now left).
  split; [exact H|].
  exact (proj2 (RecordUser_taken_username (E := stable_engine) default_catalog
                  quiet_env (User.mk 0 "alice" "" "rabbit" "") alice_db H)).
Defined.
